(** * Record stores and the record service of the framework

    A shallow embedding of

    - [src/framework/dataSources/InMemoryRepository.ts]
      (classes [InMemoryRepository] and [RestRepository]),
    - [src/framework/core/BaseService.ts]
      (class [BaseService] and the interface [IRepository]),

    together with the properties of these classes that the design
    document states. *)

From Stdlib Require Import ZArith String Ascii List Sorted Lia.
From stdpp Require Import base option list gmap strings fin_maps pretty.

Local Open Scope string_scope.
Local Open Scope list_scope.
Local Open Scope Z_scope.

(** ** The fragment of the language the classes rely on *)

Module Js.

(** Primitive values held by the fields of a record. Numbers are the
    integer-valued ones; objects as field values are not covered. *)
Inductive Value : Type :=
| VUndef
| VNull
| VBool (b : bool)
| VNum (n : Z)
| VStr (s : string).

#[global] Instance Value_eq_dec : EqDecision Value.
Proof. solve_decision. Defined.

(** [a === b]: on primitives, same type and same value. *)
Definition strict_eq (a b : Value) : bool := bool_decide (a = b).

(** [a ?? b] evaluates [b] only when [a] is [null] or [undefined]. *)
Definition is_nullish (a : Value) : bool :=
  match a with
  | VUndef | VNull => true
  | _ => false
  end.

(** Truthiness of a value, as tested by [if (v)]. *)
Definition truthy (a : Value) : bool :=
  match a with
  | VUndef | VNull => false
  | VBool b => b
  | VNum n => negb (n =? 0)
  | VStr s => negb (String.eqb s "")
  end.

(** Decimal integer literals, the part of string-to-number conversion the
    integer model of numbers can express; [None] stands for [NaN]. A
    string with a fraction, an exponent, a radix prefix or [Infinity] has
    a number the model has no value for, and what is proved of [lt] on
    strings read as numbers holds for the decimal integers among them. *)
Definition is_space (c : ascii) : bool :=
  let n := nat_of_ascii c in
  ((n =? 32) || (n =? 9) || (n =? 10) || (n =? 11) || (n =? 12) || (n =? 13))%nat.

Fixpoint trim_left (s : string) : string :=
  match s with
  | String c s' => if is_space c then trim_left s' else s
  | EmptyString => EmptyString
  end.

Fixpoint digits (acc : Z) (seen : bool) (s : string) : option Z :=
  match s with
  | EmptyString => if seen then Some acc else None
  | String c s' =>
      let n := nat_of_ascii c in
      if ((48 <=? n) && (n <=? 57))%nat
      then digits (10 * acc + Z.of_nat (n - 48)) true s'
      else if seen && String.eqb (trim_left s) "" then Some acc else None
  end.

Definition StringToNumber (s : string) : option Z :=
  match trim_left s with
  | EmptyString => Some 0
  | String "+" s' => digits 0 false s'
  | String "-" s' => Z.opp <$> digits 0 false s'
  | s' => digits 0 false s'
  end.

Definition ToNumber (a : Value) : option Z :=
  match a with
  | VUndef => None
  | VNull => Some 0
  | VBool b => Some (if b then 1 else 0)
  | VNum n => Some n
  | VStr s => StringToNumber s
  end.

(** [a < b]: two strings are compared by code units, anything else as
    numbers, and a comparison with [NaN] is false. *)
Definition lt (a b : Value) : bool :=
  match a, b with
  | VStr s, VStr t => String.ltb s t
  | _, _ =>
      match ToNumber a, ToNumber b with
      | Some m, Some n => m <? n
      | _, _ => false
      end
  end.

(** [a > b] is [b < a] on primitives. *)
Definition gt (a b : Value) : bool := lt b a.

(** Objects: own properties by name. *)
Abbreviation Obj := (gmap string Value).

(** [o[k]], [undefined] when [o] has no property [k]. *)
Definition get (o : Obj) (k : string) : Value := default VUndef (o !! k).

(** [{...a, ...b}]: the properties of [b] win. *)
Definition spread2 (a b : Obj) : Obj := b ∪ a.

(** [Array.prototype.slice]: a negative index counts from the end, and both
    indices are clamped to the array. *)
Definition rel_index (len k : Z) : Z :=
  if k <? 0 then Z.max (len + k) 0 else Z.min k len.

Definition slice {A} (l : list A) (start : Z) (end_ : option Z) : list A :=
  let len := Z.of_nat (length l) in
  let from := rel_index len start in
  let to := match end_ with
            | None => len
            | Some e => rel_index len e
            end in
  take (Z.to_nat (to - from)) (drop (Z.to_nat from) l).

(** [Array.prototype.sort] with a comparator: a stable sort, here by
    insertion. The language fixes the sorted array for a comparator that
    is consistent (a total preorder on the elements): every stable sort
    then gives the same array. For a comparator that is not, the order is
    left to the engine, and [sort] stands for the engine on the arrays
    where the two agree, as on one the engine finds to be a single
    ascending run. *)
Fixpoint insert_sorted {A} (cmp : A → A → Z) (x : A) (l : list A) : list A :=
  match l with
  | [] => [x]
  | y :: l' => if cmp x y <=? 0 then x :: l else y :: insert_sorted cmp x l'
  end.

Definition sort {A} (cmp : A → A → Z) (l : list A) : list A :=
  foldr (insert_sorted cmp) [] l.

(** The comparator puts [x] before [y], or leaves the two as they come. *)
Definition before {A} (cmp : A → A → Z) (x y : A) : Prop := cmp x y ≤ 0.

(** [Array.prototype.findIndex], [None] for [-1]. *)
Fixpoint findIndex {A} (p : A → bool) (l : list A) : option nat :=
  match l with
  | [] => None
  | x :: l' => if p x then Some 0%nat else S <$> findIndex p l'
  end.

(** [Array.prototype.find], [None] for [undefined]. *)
Fixpoint find {A} (p : A → bool) (l : list A) : option A :=
  match l with
  | [] => None
  | x :: l' => if p x then Some x else find p l'
  end.

(** A field-level violation as the validation library reports it: the
    property, its value, and the names of the rules it breaks. *)
Record ValidationError : Type := {
  property : string;
  value : Value;
  constraints : list string
}.

(** What a call can throw, or reject its promise with. *)
Inductive Error : Type :=
| Err (message : string)
| TypeError
| ValidationErrors (errors : list ValidationError).

(** The result of a call, awaited. *)
Inductive Outcome (A : Type) : Type :=
| Ok (a : A)
| Throw (e : Error).

Arguments Ok {A} a.
Arguments Throw {A} e.

(** Calls on an object whose state has type [S]. *)
Definition M (S A : Type) : Type := S → Outcome A * S.

#[global] Instance M_ret S : MRet (M S) := λ A a s, (Ok a, s).

#[global] Instance M_bind S : MBind (M S) := λ A B k m s,
  match m s with
  | (Ok a, s') => k a s'
  | (Throw e, s') => (Throw e, s')
  end.

Definition throw {S A} (e : Error) : M S A := λ s, (Throw e, s).

Definition gets {S A} (f : S → A) : M S A := λ s, (Ok (f s), s).

Definition modify {S} (f : S → S) : M S () := λ s, (Ok (), f s).

(** A loop that awaits one call per element, in order. *)
Fixpoint for_each {S A B} (f : A → M S B) (l : list A) : M S (list B) :=
  match l with
  | [] => mret []
  | x :: l' => y ← f x; ys ← for_each f l'; mret (y :: ys)
  end.

End Js.

Import Js.

(** ** Filters and find options

    The two types the stores take from the query library: a filter maps
    field names to the values they must equal, and the options carry
    [orderBy], [offset] and [limit]. A filter and an [orderBy] are kept as
    the lists [Object.entries] gives for them. *)

Module Query.

Abbreviation Filter := (list (string * Value)).

Record FindOptions : Type := {
  orderBy : option (list (string * string));
  offset : option Z;
  limit : option Z
}.

(** [options?.f] *)
Definition opt {A} (options : option FindOptions) (f : FindOptions → option A) : option A :=
  options ≫= f.

(** Truthiness of an optional number: [undefined] and [0] are falsy. *)
Definition truthy_num (n : option Z) : bool :=
  match n with
  | Some n => truthy (VNum n)
  | None => false
  end.

End Query.

Import Query.

(** ** The in-memory store *)

Module InMemory.

(** The arrays the store allocates live in [heap], one per address. The
    field [store] holds the address of the live array, [transactionStack]
    the addresses of the snapshots, most recent first. [uuids] and [drawn]
    stand for [randomUUID()]: the strings it hands out, call after call,
    and the number of calls so far. *)
Record InMemoryRepository : Type := {
  heap : list (list Obj);
  store : nat;
  transactionStack : list nat;
  uuids : nat → string;
  drawn : nat
}.

Abbreviation Repo := InMemoryRepository.

Definition with_heap (h : list (list Obj)) (r : Repo) : Repo :=
  {| heap := h; store := store r; transactionStack := transactionStack r;
     uuids := uuids r; drawn := drawn r |}.

Definition with_store (a : nat) (r : Repo) : Repo :=
  {| heap := heap r; store := a; transactionStack := transactionStack r;
     uuids := uuids r; drawn := drawn r |}.

Definition with_stack (st : list nat) (r : Repo) : Repo :=
  {| heap := heap r; store := store r; transactionStack := st;
     uuids := uuids r; drawn := drawn r |}.

Definition with_drawn (n : nat) (r : Repo) : Repo :=
  {| heap := heap r; store := store r; transactionStack := transactionStack r;
     uuids := uuids r; drawn := n |}.

(** The array at an address, and the live one, [this.store]. *)
Definition array_at (r : Repo) (a : nat) : list Obj := default [] (heap r !! a).

Definition records (r : Repo) : list Obj := array_at r (store r).

(** A new array: [[...xs]], or the result of [filter]. *)
Definition alloc (xs : list Obj) : M Repo nat :=
  a ← gets (λ r, length (heap r));
  _ ← modify (λ r, with_heap (heap r ++ [xs]) r);
  mret a.

(** In-place change of the live array: [push], [this.store[i] = x]. *)
Definition mutate (f : list Obj → list Obj) : M Repo () :=
  modify (λ r, with_heap (<[store r := f (records r)]> (heap r)) r).

Definition read_store : M Repo (list Obj) := gets records.

Definition assign_store (a : nat) : M Repo () := modify (with_store a).

Definition randomUUID : M Repo string :=
  u ← gets (λ r, uuids r (drawn r));
  _ ← modify (λ r, with_drawn (S (drawn r)) r);
  mret u.

(** [new InMemoryRepository()], given what [randomUUID] will return. *)
Definition new (u : nat → string) : Repo :=
  {| heap := [[]]; store := 0%nat; transactionStack := []; uuids := u; drawn := 0%nat |}.

Definition beginTransaction : M Repo () :=
  xs ← read_store;
  a ← alloc xs;
  modify (λ r, with_stack (a :: transactionStack r) r).

Definition commitTransaction : M Repo () :=
  modify (λ r, with_stack (tail (transactionStack r)) r).

Definition rollbackTransaction : M Repo () :=
  st ← gets transactionStack;
  match st with
  | a :: st' => _ ← modify (with_stack st'); assign_store a
  | [] => mret ()
  end.

Definition create (data : Obj) : M Repo Obj :=
  id ← (if is_nullish (get data "id")
        then u ← randomUUID; mret (VStr u)
        else mret (get data "id"));
  let entity := <["id" := id]> data in
  _ ← mutate (λ xs, xs ++ [entity]);
  mret entity.

Definition createMany (dataArr : list Obj) : M Repo (list Obj) :=
  for_each create dataArr.

Definition update (id : string) (data : Obj) : M Repo (option Obj) :=
  xs ← read_store;
  match Js.findIndex (λ item, strict_eq (get item "id") (VStr id)) xs with
  | None => mret None
  | Some index =>
      _ ← mutate (λ xs, <[index := spread2 (default ∅ (xs !! index)) data]> xs);
      xs' ← read_store;
      mret (xs' !! index)
  end.

Definition updateMany (updates : list (string * Obj)) : M Repo (list (option Obj)) :=
  for_each (λ u, update u.1 u.2) updates.

Definition delete (id : string) : M Repo () :=
  xs ← read_store;
  a ← alloc (filter (λ item, negb (strict_eq (get item "id") (VStr id)) = true) xs);
  assign_store a.

Definition includes (ids : list string) (v : Value) : bool :=
  existsb (λ i, strict_eq (VStr i) v) ids.

Definition deleteMany (ids : list string) : M Repo () :=
  xs ← read_store;
  a ← alloc (filter (λ item, negb (includes ids (get item "id")) = true) xs);
  assign_store a.

Definition findById (id : string) : M Repo (option Obj) :=
  xs ← read_store;
  mret (Js.find (λ item, strict_eq (get item "id") (VStr id)) xs).

Definition matchesFilter (item : Obj) (filters : Filter) : bool :=
  forallb (λ kv, strict_eq (get item kv.1) kv.2) filters.

Definition findOne (filters : Filter) : M Repo (option Obj) :=
  xs ← read_store;
  mret (Js.find (λ item, matchesFilter item filters) xs).

Definition findAll : M Repo (list Obj) := read_store.

(** The comparator [find] hands to [sort]. *)
Definition compare_by (key dir : string) (a b : Obj) : Z :=
  if Js.lt (get a key) (get b key) then (if String.eqb dir "ASC" then -1 else 1)
  else if Js.gt (get a key) (get b key) then (if String.eqb dir "ASC" then 1 else -1)
  else 0.

Definition find (filters : option Filter) (options : option FindOptions)
  : M Repo (list Obj) :=
  xs ← read_store;
  let results :=
    match filters with
    | Some f => filter (λ item, matchesFilter item f = true) xs
    | None => xs
    end in
  results ← match opt options orderBy with
            | Some entries =>
                match entries with
                | (key, dir) :: _ => mret (Js.sort (compare_by key dir) results)
                | [] => throw TypeError
                end
            | None => mret results
            end;
  let results := if truthy_num (opt options offset)
                 then Js.slice results (default 0 (opt options offset)) None
                 else results in
  let results := if truthy_num (opt options limit)
                 then Js.slice results 0 (opt options limit)
                 else results in
  mret results.

(** The calls that change a store, for talking about sequences of them. *)
Inductive Op : Type :=
| Create (data : Obj)
| CreateMany (dataArr : list Obj)
| Update (id : string) (data : Obj)
| UpdateMany (updates : list (string * Obj))
| Delete (id : string)
| DeleteMany (ids : list string)
| BeginTransaction
| CommitTransaction
| RollbackTransaction.

Definition exec (op : Op) : M Repo () :=
  match op with
  | Create data => _ ← create data; mret ()
  | CreateMany dataArr => _ ← createMany dataArr; mret ()
  | Update id data => _ ← update id data; mret ()
  | UpdateMany updates => _ ← updateMany updates; mret ()
  | Delete id => delete id
  | DeleteMany ids => deleteMany ids
  | BeginTransaction => beginTransaction
  | CommitTransaction => commitTransaction
  | RollbackTransaction => rollbackTransaction
  end.

Definition exec_all (ops : list Op) : M Repo () :=
  _ ← for_each exec ops; mret ().

(** The six record operations, as opposed to the transaction calls. *)
Definition is_record_op (op : Op) : bool :=
  match op with
  | BeginTransaction | CommitTransaction | RollbackTransaction => false
  | _ => true
  end.

(** The identifiers of the stored records, in order. *)
Definition ids_of (xs : list Obj) : list Value := (λ x, get x "id") <$> xs.

(** The state is well formed when the live array and every snapshot are
    allocated, no snapshot is the live array, and no array is on the stack
    twice. *)
Definition wf (r : Repo) : Prop :=
  (store r < length (heap r))%nat ∧
  Forall (λ a, (a < length (heap r))%nat ∧ a ≠ store r) (transactionStack r) ∧
  NoDup (transactionStack r).

#[global] Instance wf_dec (r : Repo) : Decision (wf r).
Proof. unfold wf. apply _. Defined.

(** What a record operation may do to the arrays: allocate new ones, change
    the live one or replace it by a new one. The stack and the arrays that
    were allocated and not live stay as they are. *)
Definition extends (r r' : Repo) : Prop :=
  (store r' < length (heap r'))%nat ∧
  (length (heap r) ≤ length (heap r'))%nat ∧
  transactionStack r' = transactionStack r ∧
  ∀ a, (a < length (heap r))%nat → a ≠ store r →
       a ≠ store r' ∧ heap r' !! a = heap r !! a.

(** Identifiers are pairwise distinct in the live array and in every
    snapshot. *)
Definition ids_apart (r : Repo) : Prop :=
  NoDup (ids_of (records r)) ∧
  Forall (λ a, NoDup (ids_of (array_at r a))) (transactionStack r).

(** The identifier [create] gives the new record. *)
Definition assigned_id (r : Repo) (data : Obj) : Value :=
  if is_nullish (get data "id") then VStr (uuids r (drawn r)) else get data "id".

(** The store never compares an identifier with the stored ones, so it is
    for the caller to bring identifiers that are free: no stored record
    holds the identifier, and [randomUUID] is not going to hand it out. *)
Definition free_id (r : Repo) (v : Value) : Prop :=
  (v ∉ ids_of (records r)) ∧ ∀ n, (drawn r ≤ n)%nat → v ≠ VStr (uuids r n).

(** A [create] keeps identifiers apart when its partial brings no
    identifier, so that one is generated, or a free one. *)
Definition create_apart (data : Obj) (r : Repo) : Prop :=
  is_nullish (get data "id") = true ∨ free_id r (get data "id").

Fixpoint creates_apart (dataArr : list Obj) (r : Repo) : Prop :=
  match dataArr with
  | [] => True
  | data :: rest => create_apart data r ∧ creates_apart rest (create data r).2
  end.

(** An [update] keeps identifiers apart when no record has the identifier
    it looks for, and when its partial has no [id] property, the [id] of
    the record it changes, or a free one. *)
Definition update_apart (id : string) (data : Obj) (r : Repo) : Prop :=
  (VStr id ∉ ids_of (records r)) ∨
  (match data !! "id" with
   | Some v => v = VStr id ∨ free_id r v
   | None => True
   end).

Fixpoint updates_apart (updates : list (string * Obj)) (r : Repo) : Prop :=
  match updates with
  | [] => True
  | u :: rest => update_apart u.1 u.2 r ∧ updates_apart rest (update u.1 u.2 r).2
  end.

(** The deletes and the transaction calls keep identifiers apart as they
    are. *)
Definition keeps_ids_apart (op : Op) (r : Repo) : Prop :=
  match op with
  | Create data => create_apart data r
  | CreateMany dataArr => creates_apart dataArr r
  | Update id data => update_apart id data r
  | UpdateMany updates => updates_apart updates r
  | _ => True
  end.

(** Every generated identifier held by the live array or by a snapshot was
    handed out by one of the calls of [randomUUID] so far. *)
Definition generated_before (r : Repo) : Prop :=
  ∀ a n, a = store r ∨ a ∈ transactionStack r →
         VStr (uuids r n) ∈ ids_of (array_at r a) → (n < drawn r)%nat.

(** What the operations that keep identifiers apart maintain, for the
    generator [u]. *)
Definition kept_apart (u : nat → string) (r : Repo) : Prop :=
  wf r ∧ ids_apart r ∧ uuids r = u ∧ generated_before r.

(** States reached from a new store by any operations, and by operations
    that keep identifiers apart. *)
Inductive reachable (u : nat → string) : Repo → Prop :=
| reachable_new : reachable u (new u)
| reachable_step r op : reachable u r → reachable u (exec op r).2.

Inductive reachable_apart (u : nat → string) : Repo → Prop :=
| reachable_apart_new : reachable_apart u (new u)
| reachable_apart_step r op :
    reachable_apart u r → keeps_ids_apart op r → reachable_apart u (exec op r).2.

(** The records that match a filter, sorted by one [orderBy] pair. *)
Definition ordered (f : Filter) (key dir : string) (xs : list Obj) : list Obj :=
  Js.sort (compare_by key dir) (filter (λ item, matchesFilter item f = true) xs).



(** Pagination as the design document words it: filter, sort by the one
    [orderBy] pair, drop the first [o], keep the first [l]. *)
Definition find_spec (f : Filter) (key dir : string) (o l : Z) (xs : list Obj)
  : list Obj :=
  take (Z.to_nat l) (drop (Z.to_nat o) (ordered f key dir xs)).

End InMemory.

(** ** The store contract *)

Module IRepository.

Class t (R : Type) : Type := {
  beginTransaction : M R ();
  commitTransaction : M R ();
  rollbackTransaction : M R ();
  createMany : list Obj → M R (list Obj);
  updateMany : list (string * Obj) → M R (list (option Obj));
  deleteMany : list string → M R ();
  create : Obj → M R Obj;
  update : string → Obj → M R (option Obj);
  delete : string → M R ();
  findById : string → M R (option Obj);
  findOne : Filter → M R (option Obj);
  findAll : M R (list Obj);
  find : option Filter → option FindOptions → M R (list Obj)
}.

End IRepository.

#[global] Instance InMemory_IRepository : IRepository.t InMemory.Repo := {|
  IRepository.beginTransaction := InMemory.beginTransaction;
  IRepository.commitTransaction := InMemory.commitTransaction;
  IRepository.rollbackTransaction := InMemory.rollbackTransaction;
  IRepository.createMany := InMemory.createMany;
  IRepository.updateMany := InMemory.updateMany;
  IRepository.deleteMany := InMemory.deleteMany;
  IRepository.create := InMemory.create;
  IRepository.update := InMemory.update;
  IRepository.delete := InMemory.delete;
  IRepository.findById := InMemory.findById;
  IRepository.findOne := InMemory.findOne;
  IRepository.findAll := InMemory.findAll;
  IRepository.find := InMemory.find
|}.

(** ** The remote store *)

Module Rest.

(** A request as the store hands it to the HTTP client. *)
Inductive Body : Type :=
| NoBody
| Entity (data : Obj)
| Entities (dataArr : list Obj)
| Updates (updates : list (string * Obj))
| Ids (ids : list string).

Record Params : Type := {
  filters : Filter;
  p_limit : option Z;
  p_offset : option Z;
  p_orderBy : option (list (string * string))
}.

Definition no_params : Params :=
  {| filters := []; p_limit := None; p_offset := None; p_orderBy := None |}.

Record Request : Type := {
  method : string;
  url : string;
  data : Body;
  params : Params
}.

(** The type a call asks the client to read the response as: [T] or [T[]]. *)
Inductive Shape : Type := One | Many.

Definition response_data (sh : Shape) : Type :=
  match sh with
  | One => Obj
  | Many => list Obj
  end.

Record RestRepository : Type := { baseUrl : string }.

Section Client.

(** The HTTP client and the network behind it: a request is answered with
    data of the shape asked for, or fails. *)
Context {Net : Type}.
Variable axios : ∀ sh : Shape, Request → M Net (response_data sh).
Variable this : RestRepository.

Definition createMany (dataArr : list Obj) : M Net (list Obj) :=
  axios Many {| method := "POST"; url := baseUrl this +:+ "/bulk";
                data := Entities dataArr; params := no_params |}.

Definition updateMany (updates : list (string * Obj)) : M Net (list (option Obj)) :=
  response ← axios Many {| method := "PUT"; url := baseUrl this +:+ "/bulk";
                           data := Updates updates; params := no_params |};
  mret (Some <$> response).

Definition deleteMany (ids : list string) : M Net () :=
  _ ← axios One {| method := "DELETE"; url := baseUrl this +:+ "/bulk";
                   data := Ids ids; params := no_params |};
  mret ().

Definition create (data : Obj) : M Net Obj :=
  axios One {| method := "POST"; url := baseUrl this;
               data := Entity data; params := no_params |}.

Definition update (id : string) (data : Obj) : M Net (option Obj) :=
  response ← axios One {| method := "PUT"; url := baseUrl this +:+ ("/" +:+ id);
                          data := Entity data; params := no_params |};
  mret (Some response).

Definition delete (id : string) : M Net () :=
  _ ← axios One {| method := "DELETE"; url := baseUrl this +:+ ("/" +:+ id);
                   data := NoBody; params := no_params |};
  mret ().

Definition findById (id : string) : M Net (option Obj) :=
  response ← axios One {| method := "GET"; url := baseUrl this +:+ ("/" +:+ id);
                          data := NoBody; params := no_params |};
  mret (Some response).

Definition findOne (f : Filter) : M Net (option Obj) :=
  response ← axios Many {| method := "GET"; url := baseUrl this; data := NoBody;
                           params := {| filters := f; p_limit := None;
                                        p_offset := None; p_orderBy := None |} |};
  mret (head response).

Definition findAll : M Net (list Obj) :=
  axios Many {| method := "GET"; url := baseUrl this;
                data := NoBody; params := no_params |}.

Definition find (f : option Filter) (options : option FindOptions) : M Net (list Obj) :=
  let p :=
    {| filters := default [] f;
       p_limit := if truthy_num (opt options limit) then opt options limit else None;
       p_offset := if truthy_num (opt options offset) then opt options offset else None;
       p_orderBy := opt options orderBy |} in
  axios Many {| method := "GET"; url := baseUrl this; data := NoBody; params := p |}.

Definition beginTransaction : M Net () := throw (Err "Operation not supported.").

Definition commitTransaction : M Net () := throw (Err "Operation not supported.").

Definition rollbackTransaction : M Net () := throw (Err "Operation not supported.").

#[local] Instance Rest_IRepository : IRepository.t Net := {|
  IRepository.beginTransaction := beginTransaction;
  IRepository.commitTransaction := commitTransaction;
  IRepository.rollbackTransaction := rollbackTransaction;
  IRepository.createMany := createMany;
  IRepository.updateMany := updateMany;
  IRepository.deleteMany := deleteMany;
  IRepository.create := create;
  IRepository.update := update;
  IRepository.delete := delete;
  IRepository.findById := findById;
  IRepository.findOne := findOne;
  IRepository.findAll := findAll;
  IRepository.find := find
|}.

(** Calls on a remote store, for talking about what came before. *)
Inductive Call : Type :=
| CreateMany (dataArr : list Obj)
| UpdateMany (updates : list (string * Obj))
| DeleteMany (ids : list string)
| Create (data : Obj)
| Update (id : string) (data : Obj)
| Delete (id : string)
| FindById (id : string)
| FindOne (f : Filter)
| FindAll
| Find (f : option Filter) (options : option FindOptions)
| BeginTransaction
| CommitTransaction
| RollbackTransaction.

Definition call (c : Call) : M Net () :=
  match c with
  | CreateMany dataArr => _ ← createMany dataArr; mret ()
  | UpdateMany updates => _ ← updateMany updates; mret ()
  | DeleteMany ids => deleteMany ids
  | Create data => _ ← create data; mret ()
  | Update id data => _ ← update id data; mret ()
  | Delete id => delete id
  | FindById id => _ ← findById id; mret ()
  | FindOne f => _ ← findOne f; mret ()
  | FindAll => _ ← findAll; mret ()
  | Find f options => _ ← find f options; mret ()
  | BeginTransaction => beginTransaction
  | CommitTransaction => commitTransaction
  | RollbackTransaction => rollbackTransaction
  end.

(** The network after a history of calls, whether they failed or not. *)
Definition after (history : list Call) (net : Net) : Net :=
  foldl (λ n c, (call c n).2) net history.

End Client.

End Rest.

(** ** Declared field rules and their validation

    The rules the record types of the repository declare on their fields,
    and the check the validation library runs on an instance: one violation
    per field that breaks some of its rules. *)

Module Validator.

Record Rule : Type := {
  name : string;
  holds : Value → bool
}.

Definition IsString : Rule :=
  {| name := "isString";
     holds v := match v with VStr _ => true | _ => false end |}.

Definition IsNotEmpty : Rule :=
  {| name := "isNotEmpty";
     holds v := negb (strict_eq v (VStr "")) && negb (is_nullish v) |}.

Definition IsNumber : Rule :=
  {| name := "isNumber";
     holds v := match v with VNum _ => true | _ => false end |}.

Definition Min (bound : Z) : Rule :=
  {| name := "min";
     holds v := match v with VNum n => bound <=? n | _ => false end |}.

Abbreviation Rules := (list (string * list Rule)).

Definition check_field (instance : Obj) (decl : string * list Rule)
  : option ValidationError :=
  let v := get instance decl.1 in
  match filter (λ rule, holds rule v = false) decl.2 with
  | [] => None
  | broken => Some {| property := decl.1; value := v; constraints := name <$> broken |}
  end.

Definition validate (rules : Rules) (instance : Obj) : list ValidationError :=
  omap (check_field instance) rules.

End Validator.

(** ** The record service *)

Module BaseService.

(** A record type as the service uses it: what [new this.entity()] gives,
    and the validation its declarations amount to. *)
Record EntityClass : Type := {
  construct : Obj;
  validate : Obj → list ValidationError
}.

(** [Object.assign(target, source)] *)
Definition Object_assign (target source : Obj) : Obj := spread2 target source.

(** [validateOrReject]: completes, or rejects with the violations. *)
Definition validateOrReject {S} (cls : EntityClass) (instance : Obj) : M S () :=
  match validate cls instance with
  | [] => mret ()
  | errors => throw (ValidationErrors errors)
  end.

(** The lifecycle hooks, which a service may override. *)
Record Hooks (S : Type) : Type := {
  beforeCreate : Obj → M S ();
  afterCreate : Obj → M S ();
  beforeUpdate : string → Obj → M S ();
  afterUpdate : option Obj → M S ();
  beforeDelete : string → M S ();
  afterDelete : string → M S ()
}.

Arguments beforeCreate {S} _ _.
Arguments afterCreate {S} _ _.
Arguments beforeUpdate {S} _ _ _.
Arguments afterUpdate {S} _ _.
Arguments beforeDelete {S} _ _.
Arguments afterDelete {S} _ _.

(** The hooks of [BaseService] itself. *)
Definition base {S} (entity : EntityClass) : Hooks S := {|
  beforeCreate data :=
    let instance := Object_assign (construct entity) data in
    validateOrReject entity instance;
  afterCreate _ := mret ();
  beforeUpdate id data :=
    let instance := Object_assign (construct entity) data in
    validateOrReject entity instance;
  afterUpdate _ := mret ();
  beforeDelete _ := mret ();
  afterDelete _ := mret ()
|}.

Section Service.

Context {R : Type} {repo : IRepository.t R}.
Variable this : Hooks R.

Definition create (data : Obj) : M R Obj :=
  _ ← beforeCreate this data;
  instance ← IRepository.create data;
  _ ← afterCreate this instance;
  mret instance.

Definition update (id : string) (data : Obj) : M R (option Obj) :=
  _ ← beforeUpdate this id data;
  updated ← IRepository.update id data;
  _ ← afterUpdate this updated;
  mret updated.

Definition delete (id : string) : M R () :=
  _ ← beforeDelete this id;
  _ ← IRepository.delete id;
  afterDelete this id.

Definition findById (id : string) : M R (option Obj) := IRepository.findById id.

Definition findOne (filters : Filter) : M R (option Obj) := IRepository.findOne filters.

Definition findAll : M R (list Obj) := IRepository.findAll.

Definition find (filters : option Filter) (options : option FindOptions)
  : M R (list Obj) :=
  IRepository.find filters options.

End Service.

End BaseService.

(** ** A store that records the calls made on it *)

Module Spy.

Inductive Called : Type :=
| beginTransaction
| commitTransaction
| rollbackTransaction
| createMany (dataArr : list Obj)
| updateMany (updates : list (string * Obj))
| deleteMany (ids : list string)
| create (data : Obj)
| update (id : string) (data : Obj)
| delete (id : string)
| findById (id : string)
| findOne (filters : Filter)
| findAll
| find (filters : option Filter) (options : option FindOptions).

(** The calls so far, latest first, and the store they went to. *)
Record Spied (R : Type) : Type := {
  calls : list Called;
  inner : R
}.

Arguments calls {R} _.
Arguments inner {R} _.

Definition forward {R A} (c : Called) (m : M R A) : M (Spied R) A :=
  λ s, let (out, r') := m (inner s) in
       (out, {| calls := c :: calls s; inner := r' |}).

#[global] Instance Spied_IRepository {R} `{IRepository.t R} : IRepository.t (Spied R) := {|
  IRepository.beginTransaction := forward beginTransaction IRepository.beginTransaction;
  IRepository.commitTransaction := forward commitTransaction IRepository.commitTransaction;
  IRepository.rollbackTransaction :=
    forward rollbackTransaction IRepository.rollbackTransaction;
  IRepository.createMany d := forward (createMany d) (IRepository.createMany d);
  IRepository.updateMany u := forward (updateMany u) (IRepository.updateMany u);
  IRepository.deleteMany i := forward (deleteMany i) (IRepository.deleteMany i);
  IRepository.create d := forward (create d) (IRepository.create d);
  IRepository.update i d := forward (update i d) (IRepository.update i d);
  IRepository.delete i := forward (delete i) (IRepository.delete i);
  IRepository.findById i := forward (findById i) (IRepository.findById i);
  IRepository.findOne f := forward (findOne f) (IRepository.findOne f);
  IRepository.findAll := forward findAll IRepository.findAll;
  IRepository.find f o := forward (find f o) (IRepository.find f o)
|}.

End Spy.

(** ** The review record type of the sample *)

Module ProductReview.

Definition rules : Validator.Rules :=
  [("id", [Validator.IsString]);
   ("review", [Validator.IsString; Validator.IsNotEmpty])].

Definition entity : BaseService.EntityClass :=
  {| BaseService.construct := ∅;
     BaseService.validate := Validator.validate rules |}.

End ProductReview.

(** ** Sample data *)

Module Sample.

Import InMemory.

Fixpoint tally (n : nat) : string :=
  match n with
  | O => ""
  | S n' => String "i" (tally n')
  end.

(** Generated identifiers, all different. *)
Definition uuid (n : nat) : string := "uuid-" +:+ tally n.

Definition widget : Obj :=
  <["id" := VStr "p1"]> (<["name" := VStr "Widget"]> (<["price" := VNum 100]> ∅)).

Definition gadget : Obj :=
  <["id" := VStr "p2"]> (<["name" := VStr "Gadget"]> (<["price" := VNum 50]> ∅)).

(** A partial that brings the identifier of the widget along. *)
Definition copycat : Obj :=
  <["id" := VStr "p1"]> (<["name" := VStr "Other"]> ∅).

(** A store with the two products, created in this order. *)
Definition shop : Repo := (createMany [widget; gadget] (new uuid)).2.

Definition by_price (o l : Z) : FindOptions :=
  {| orderBy := Some [("price", "ASC")]; offset := Some o; limit := Some l |}.

(** A review that meets the rules of its type, and the store holding it. *)
Definition praise : Obj :=
  <["id" := VStr "r1"]> (<["review" := VStr "Great!"]> ∅).

Definition reviews : Repo := (create praise (new uuid)).2.

(** A partial that changes the text of a review and nothing else. *)
Definition reworded : Obj := <["review" := VStr "Better"]> ∅.

(** A review with an empty text. *)
Definition blank : Obj :=
  <["id" := VStr "r2"]> (<["review" := VStr ""]> ∅).

(** A store that has not been called yet. *)
Definition fresh_spy : Spy.Spied Repo := {| Spy.calls := []; Spy.inner := reviews |}.

(** The hooks of the base service with an [afterCreate] that fails. *)
Definition failing_after : BaseService.Hooks Repo := {|
  BaseService.beforeCreate := BaseService.beforeCreate (BaseService.base ProductReview.entity);
  BaseService.afterCreate _ := throw (Err "after");
  BaseService.beforeUpdate := BaseService.beforeUpdate (BaseService.base ProductReview.entity);
  BaseService.afterUpdate := BaseService.afterUpdate (BaseService.base ProductReview.entity);
  BaseService.beforeDelete := BaseService.beforeDelete (BaseService.base ProductReview.entity);
  BaseService.afterDelete := BaseService.afterDelete (BaseService.base ProductReview.entity)
|}.

(** A record type with rules for a name and a price. *)
Definition priced : BaseService.EntityClass :=
  {| BaseService.construct := ∅;
     BaseService.validate :=
       Validator.validate
         [("name", [Validator.IsString; Validator.IsNotEmpty]);
          ("price", [Validator.IsNumber; Validator.Min 0])] |}.

(** A second widget, under another identifier. *)
Definition widget_again : Obj :=
  <["id" := VStr "p9"]> (<["name" := VStr "Widget"]> (<["price" := VNum 7]> ∅)).

Definition gizmo : Obj :=
  <["name" := VStr "Gizmo"]> (<["price" := VNum 7]> ∅).





End Sample.

(** ** Sequences of store calls with nested transactions *)

Module Nesting.

Import InMemory.

(** The sequence closes every transaction it begins, and commits or rolls
    back none but its own: [depth] counts the transactions that are open. *)
Fixpoint balanced (depth : nat) (ops : list Op) : bool :=
  match ops with
  | [] => (depth =? 0)%nat
  | BeginTransaction :: rest => balanced (S depth) rest
  | CommitTransaction :: rest | RollbackTransaction :: rest =>
      match depth with
      | O => false
      | S d => balanced d rest
      end
  | _ :: rest => balanced depth rest
  end.

(** Two states a caller cannot tell apart: the same live records and the
    same identifiers to come. *)
Definition same_view (r1 r2 : Repo) : Prop :=
  records r1 = records r2 ∧ uuids r1 = uuids r2 ∧ drawn r1 = drawn r2.

(** The snapshot at address [a] holds [S] and lies under [k] open
    transactions, above the stack [below]. *)
Definition under (a : nat) (S : list Obj) (below : list nat) (k : nat) (r : Repo) : Prop :=
  wf r ∧ heap r !! a = Some S
  ∧ ∃ inner, length inner = k ∧ transactionStack r = inner ++ a :: below.

(** A call that answers and changes the records by what a caller can see
    of the state, whatever the arrays behind it. *)
Definition sees_alike {A} (m : M Repo A) : Prop :=
  ∀ r1 r2,
    (store r1 < length (heap r1))%nat → (store r2 < length (heap r2))%nat →
    same_view r1 r2 →
    (m r1).1 = (m r2).1 ∧ same_view (m r1).2 (m r2).2
    ∧ (store (m r1).2 < length (heap (m r1).2))%nat
    ∧ (store (m r2).2 < length (heap (m r2).2))%nat.

End Nesting.

(** ** The product service of the sample

    [ProductService] overrides [beforeCreate]: after the validation of the
    base service it looks for a stored product with the same name. Its
    [create] lays two computed prices over the data and calls the [create]
    of the base service, which is the one meant here. *)

Module ProductService.

(** [`${v}`] *)
Definition ToString (v : Value) : string :=
  match v with
  | VUndef => "undefined"
  | VNull => "null"
  | VBool b => if b then "true" else "false"
  | VNum n => pretty n
  | VStr s => s
  end.

Section Service.

Context {R : Type} {repo : IRepository.t R}.
Variable entity : BaseService.EntityClass.

Definition beforeCreate (data : Obj) : M R () :=
  _ ← BaseService.beforeCreate (BaseService.base entity) data;
  if truthy (get data "name")
  then existing ← IRepository.findOne [("name", get data "name")];
       match existing with
       | Some _ =>
           throw (Err ("Product name '" +:+ ToString (get data "name")
                       +:+ "' already exists."))
       | None => mret ()
       end
  else mret ().

Definition hooks : BaseService.Hooks R := {|
  BaseService.beforeCreate := beforeCreate;
  BaseService.afterCreate := BaseService.afterCreate (BaseService.base entity);
  BaseService.beforeUpdate := BaseService.beforeUpdate (BaseService.base entity);
  BaseService.afterUpdate := BaseService.afterUpdate (BaseService.base entity);
  BaseService.beforeDelete := BaseService.beforeDelete (BaseService.base entity);
  BaseService.afterDelete := BaseService.afterDelete (BaseService.base entity)
|}.

(** One [create] after the other, each awaited and its failure caught. *)
Definition attempts (dataArr : list Obj) (s : R) : R :=
  foldl (λ s data, (BaseService.create hooks data s).2) s dataArr.

End Service.

(** The names of the stored products that the check looks at: the truthy
    ones. *)
Definition names (xs : list Obj) : list Value :=
  filter (λ v, truthy v = true) ((λ x, get x "name") <$> xs).

End ProductService.

(** ** The decorator that attaches the kind of store to a class *)

Module Decorators.

Inductive RepositoryType : Type := SQL | REST | INMEMORY.

#[global] Instance RepositoryType_eq_dec : EqDecision RepositoryType.
Proof. solve_decision. Defined.

Record RepositoryMetadata : Type := {
  type : RepositoryType;
  db : option string
}.

(** What is kept under a metadata key: the whole metadata, or its type. *)
Inductive Meta : Type :=
| Config (metadata : RepositoryMetadata)
| Kind (t : RepositoryType).

(** A class, by the identity of its constructor, with the constructors it
    inherits from, nearest first. *)
Record Target : Type := {
  self : nat;
  ancestors : list nat
}.

(** The metadata that [Reflect.defineMetadata] has put on constructors. *)
Abbreviation Registry := (gmap (nat * string) Meta).

Definition defineMetadata (key : string) (v : Meta) (target : Target) : M Registry () :=
  modify (λ reg : Registry, <[(self target, key) := v]> reg).

(** [Reflect.getMetadata]: the constructor's own metadata, or else the
    nearest inherited one. *)
Fixpoint lookup_chain (reg : Registry) (key : string) (chain : list nat) : option Meta :=
  match chain with
  | [] => None
  | c :: rest =>
      match reg !! (c, key) with
      | Some v => Some v
      | None => lookup_chain reg key rest
      end
  end.

Definition getMetadata (key : string) (target : Target) : M Registry (option Meta) :=
  gets (λ reg, lookup_chain reg key (self target :: ancestors target)).

(** [metadata.db] as a condition: there, and not the empty string. *)
Definition has_db (metadata : RepositoryMetadata) : bool :=
  match db metadata with
  | Some name => truthy (VStr name)
  | None => false
  end.

Definition Repository (metadata : RepositoryMetadata) (target : Target) : M Registry () :=
  if bool_decide (type metadata = SQL) && has_db metadata
  then defineMetadata "repository:config" (Config metadata) target
  else defineMetadata "repository:type" (Kind (type metadata)) target.

Definition getRepositoryConfig (target : Target) : M Registry (option Meta) :=
  config ← getMetadata "repository:config" target;
  match config with
  | Some v => mret (Some v)
  | None => getMetadata "repository:type" target
  end.

End Decorators.

(** ** The remote store over a client that keeps the requests *)

Module Wire.

Section Recorded.

Context {Net : Type}.
Variable axios : ∀ sh : Rest.Shape, Rest.Request → M Net (Rest.response_data sh).

(** The requests sent so far, latest first, and the network. *)
Definition recorded (sh : Rest.Shape) (req : Rest.Request)
  : M (list Rest.Request * Net) (Rest.response_data sh) :=
  λ s, let (out, net') := axios sh req s.2 in (out, (req :: s.1, net')).

End Recorded.

(** The request the design gives for a call: method, URL, body and query. *)
Definition request_of (this : Rest.RestRepository) (c : Rest.Call) : option Rest.Request :=
  let base := Rest.baseUrl this in
  let req m u d p := Some {| Rest.method := m; Rest.url := u; Rest.data := d;
                             Rest.params := p |} in
  match c with
  | Rest.CreateMany dataArr =>
      req "POST" (base +:+ "/bulk") (Rest.Entities dataArr) Rest.no_params
  | Rest.UpdateMany updates =>
      req "PUT" (base +:+ "/bulk") (Rest.Updates updates) Rest.no_params
  | Rest.DeleteMany ids =>
      req "DELETE" (base +:+ "/bulk") (Rest.Ids ids) Rest.no_params
  | Rest.Create data => req "POST" base (Rest.Entity data) Rest.no_params
  | Rest.Update id data => req "PUT" (base +:+ ("/" +:+ id)) (Rest.Entity data) Rest.no_params
  | Rest.Delete id => req "DELETE" (base +:+ ("/" +:+ id)) Rest.NoBody Rest.no_params
  | Rest.FindById id => req "GET" (base +:+ ("/" +:+ id)) Rest.NoBody Rest.no_params
  | Rest.FindOne f =>
      req "GET" base Rest.NoBody
        {| Rest.filters := f; Rest.p_limit := None; Rest.p_offset := None;
           Rest.p_orderBy := None |}
  | Rest.FindAll => req "GET" base Rest.NoBody Rest.no_params
  | Rest.Find f options =>
      req "GET" base Rest.NoBody
        {| Rest.filters := default [] f;
           Rest.p_limit := match opt options limit with
                           | Some 0 => None
                           | l => l
                           end;
           Rest.p_offset := match opt options offset with
                            | Some 0 => None
                            | o => o
                            end;
           Rest.p_orderBy := opt options orderBy |}
  | Rest.BeginTransaction | Rest.CommitTransaction | Rest.RollbackTransaction => None
  end.

(** The shape a call reads the response as. *)
Definition shape_of (c : Rest.Call) : Rest.Shape :=
  match c with
  | Rest.CreateMany _ | Rest.UpdateMany _ | Rest.FindOne _ | Rest.FindAll
  | Rest.Find _ _ => Rest.Many
  | _ => Rest.One
  end.

End Wire.

(** ** The relational store

    [SqlRepository] hands every operation to an entity manager. The manager
    and the database behind it are outside the repository: they are taken
    as given, with the entities they manage as handles of a type [Ref]. *)

Module Sql.

(** What the store asks the manager to look for: [{ id }],
    [{ id: { $in: ids } }], or the filters of the caller, [{}] being the
    empty filter. *)
Inductive Where : Type :=
| ById (id : string)
| IdIn (ids : list string)
| Fields (filters : option Filter).

(** The calls of the manager the store uses, on the entity class of the
    store. *)
Record EntityManager (Db Ref : Type) : Type := {
  em_create : Obj → M Db Ref;
  em_persistAndFlush : list Ref → M Db ();
  em_findOne : Where → M Db (option Ref);
  em_find : Where → option FindOptions → M Db (list Ref);
  em_assign : Ref → Obj → M Db ();
  em_removeAndFlush : list Ref → M Db ();
  em_begin : M Db ();
  em_commit : M Db ();
  em_rollback : M Db ()
}.

Arguments em_create {Db Ref} _ _.
Arguments em_persistAndFlush {Db Ref} _ _.
Arguments em_findOne {Db Ref} _ _.
Arguments em_find {Db Ref} _ _ _.
Arguments em_assign {Db Ref} _ _ _.
Arguments em_removeAndFlush {Db Ref} _ _.
Arguments em_begin {Db Ref} _.
Arguments em_commit {Db Ref} _.
Arguments em_rollback {Db Ref} _.

Section Repository.

Context {Db Ref : Type}.
Variable em : EntityManager Db Ref.

Definition createMany (dataArr : list Obj) : M Db (list Ref) :=
  entities ← for_each (em_create em) dataArr;
  _ ← em_persistAndFlush em entities;
  mret entities.

(** The loop of [updateMany], with the results so far. *)
Fixpoint updateMany_loop (updates : list (string * Obj)) (results : list (option Ref))
  : M Db (list (option Ref)) :=
  match updates with
  | [] => mret results
  | (id, data) :: rest =>
      entity ← em_findOne em (ById id);
      match entity with
      | None => updateMany_loop rest (results ++ [None])
      | Some e =>
          _ ← em_assign em e data;
          updateMany_loop rest (results ++ [Some e])
      end
  end.

Definition updateMany (updates : list (string * Obj)) : M Db (list (option Ref)) :=
  results ← updateMany_loop updates [];
  _ ← em_persistAndFlush em (omap id results);
  mret results.

Definition deleteMany (ids : list string) : M Db () :=
  entities ← em_find em (IdIn ids) None;
  em_removeAndFlush em entities.

Definition findById (id : string) : M Db (option Ref) := em_findOne em (ById id).

Definition findOne (filters : Filter) : M Db (option Ref) :=
  em_findOne em (Fields (Some filters)).

Definition findAll : M Db (list Ref) := em_find em (Fields (Some [])) None.

Definition find (filters : option Filter) (options : option FindOptions) : M Db (list Ref) :=
  em_find em (Fields filters) options.

Definition create (data : Obj) : M Db Ref :=
  entity ← em_create em data;
  _ ← em_persistAndFlush em [entity];
  mret entity.

Definition update (id : string) (data : Obj) : M Db (option Ref) :=
  entity ← em_findOne em (ById id);
  match entity with
  | None => mret None
  | Some e =>
      _ ← em_assign em e data;
      _ ← em_persistAndFlush em [e];
      mret (Some e)
  end.

Definition delete (id : string) : M Db () :=
  entity ← em_findOne em (ById id);
  match entity with
  | Some e => em_removeAndFlush em [e]
  | None => mret ()
  end.

Definition beginTransaction : M Db () := em_begin em.

Definition commitTransaction : M Db () := em_commit em.

Definition rollbackTransaction : M Db () := em_rollback em.

(** The calls a manager has received. *)
Inductive Asked : Type :=
| AskedCreate (data : Obj)
| AskedPersistAndFlush (entities : list Ref)
| AskedFindOne (w : Where)
| AskedFind (w : Where) (options : option FindOptions)
| AskedAssign (entity : Ref) (data : Obj)
| AskedRemoveAndFlush (entities : list Ref)
| AskedBegin
| AskedCommit
| AskedRollback.

Definition note {A} (call : Asked) (m : M Db A) : M (list Asked * Db) A :=
  λ s, let (out, db') := m s.2 in (out, (call :: s.1, db')).

(** The manager that keeps the calls it receives, latest first. *)
Definition journaled : EntityManager (list Asked * Db) Ref := {|
  em_create data := note (AskedCreate data) (em_create em data);
  em_persistAndFlush es := note (AskedPersistAndFlush es) (em_persistAndFlush em es);
  em_findOne w := note (AskedFindOne w) (em_findOne em w);
  em_find w o := note (AskedFind w o) (em_find em w o);
  em_assign e data := note (AskedAssign e data) (em_assign em e data);
  em_removeAndFlush es := note (AskedRemoveAndFlush es) (em_removeAndFlush em es);
  em_begin := note AskedBegin (em_begin em);
  em_commit := note AskedCommit (em_commit em);
  em_rollback := note AskedRollback (em_rollback em)
|}.

(** The calls one entry of [updateMany] makes, given its answer: the
    lookup, and the assignment when an entity was found. *)
Definition asked_for (u : string * Obj) (answer : option Ref) : list Asked :=
  AskedFindOne (ById u.1) ::
  match answer with
  | Some e => [AskedAssign e u.2]
  | None => []
  end.

Fixpoint asked_for_all (updates : list (string * Obj)) (answers : list (option Ref))
  : list Asked :=
  match updates, answers with
  | u :: updates', o :: answers' => asked_for u o ++ asked_for_all updates' answers'
  | _, _ => []
  end.

End Repository.

(** A manager for the examples: entities are kept by identifier, and
    their identifier is their handle. *)
Definition shelf : EntityManager (gmap string Obj) string := {|
  em_create data := mret (ProductService.ToString (get data "id"));
  em_persistAndFlush _ := mret ();
  em_findOne w :=
    match w with
    | ById id => gets (λ db : gmap string Obj, const id <$> db !! id)
    | _ => mret None
    end;
  em_find _ _ := mret [];
  em_assign e data := modify (λ db : gmap string Obj, alter (λ o, spread2 o data) e db);
  em_removeAndFlush es := modify (λ db : gmap string Obj, foldr base.delete db es);
  em_begin := mret ();
  em_commit := mret ();
  em_rollback := mret ()
|}.

End Sql.

(** * Properties *)

(** ** The language fragment *)

Example lt_strings : Js.lt (VStr "Gadget") (VStr "Widget") = true.
Proof. reflexivity. Qed.

Example lt_undefined : Js.lt VUndef (VNum 3) = false ∧ Js.lt (VNum 3) VUndef = false.
Proof. split; reflexivity. Qed.

Example lt_mixed :
  Js.lt (VStr "9") (VStr "10") = false ∧ Js.lt (VNum 9) (VStr "10") = true
  ∧ Js.lt (VStr "abc") (VNum 1) = false ∧ Js.lt VNull (VNum 1) = true.
Proof. repeat split. Qed.

Example slice_from_end : Js.slice [1; 2; 3; 4; 5] (-2) None = [4; 5].
Proof. reflexivity. Qed.

Example sort_stable :
  Js.sort (λ a b : Z * Z, Z.sgn (a.1 - b.1)) [(2, 0); (1, 1); (2, 2); (1, 3)]
  = [(1, 1); (1, 3); (2, 0); (2, 2)].
Proof. reflexivity. Qed.

Example get_id : Js.get (<["id" := VStr "a"]> ∅) "id" = VStr "a".
Proof. vm_compute. reflexivity. Qed.

Lemma slice_from (A : Type) (l : list A) (o : Z) :
  0 ≤ o → Js.slice l o None = drop (Z.to_nat o) l.
Proof.
  intros Ho. unfold Js.slice, Js.rel_index.
  destruct (Z.ltb_spec o 0) as [|_]; [lia|].
  destruct (Z.le_gt_cases o (Z.of_nat (length l))) as [Hle|Hgt].
  - rewrite Z.min_l by lia. apply take_ge. rewrite length_drop. lia.
  - rewrite Z.min_r by lia. rewrite Z.sub_diag, Nat2Z.id. simpl.
    rewrite !drop_ge by lia. reflexivity.
Qed.

Lemma slice_to (A : Type) (l : list A) (n : Z) :
  0 ≤ n → Js.slice l 0 (Some n) = take (Z.to_nat n) l.
Proof.
  intros Hn. unfold Js.slice, Js.rel_index.
  destruct (Z.ltb_spec n 0) as [|_]; [lia|].
  change (0 <? 0) with false. cbv iota.
  rewrite (Z.min_l 0) by lia. rewrite Z.sub_0_r. simpl. rewrite drop_0.
  destruct (Z.le_gt_cases n (Z.of_nat (length l))) as [Hle|Hgt].
  - rewrite Z.min_l by lia. reflexivity.
  - rewrite Z.min_r by lia. rewrite Nat2Z.id. rewrite !take_ge by lia. reflexivity.
Qed.

Lemma insert_sorted_Permutation (A : Type) (cmp : A → A → Z) (x : A) (l : list A) :
  Js.insert_sorted cmp x l ≡ₚ x :: l.
Proof.
  induction l as [|y l IH]; simpl; [reflexivity|].
  destruct (cmp x y <=? 0); [reflexivity|].
  rewrite IH. apply Permutation_swap.
Qed.

(** Sorting rearranges the array and neither adds nor drops an element. *)
Lemma sort_Permutation (A : Type) (cmp : A → A → Z) (l : list A) :
  Js.sort cmp l ≡ₚ l.
Proof.
  induction l as [|x l IH]; simpl; [reflexivity|].
  unfold Js.sort in *. simpl. rewrite insert_sorted_Permutation, IH. reflexivity.
Qed.

Section Sorting.

Context {A : Type} (cmp : A → A → Z).

Hypothesis total : ∀ x y, Js.before cmp x y ∨ Js.before cmp y x.
Hypothesis transitive :
  ∀ x y z, Js.before cmp x y → Js.before cmp y z → Js.before cmp x z.

Lemma insert_sorted_sorted (x : A) (l : list A) :
  StronglySorted (Js.before cmp) l →
  StronglySorted (Js.before cmp) (Js.insert_sorted cmp x l).
Proof.
  induction 1 as [|y l Hsorted IH Hy]; simpl.
  - repeat constructor.
  - destruct (Z.leb_spec (cmp x y) 0) as [Hxy|Hxy].
    + constructor; [by constructor|]. constructor; [done|].
      eapply Forall_impl; [exact Hy|]. intros z Hz. by eapply transitive.
    + constructor; [done|]. rewrite insert_sorted_Permutation.
      constructor; [|done]. destruct (total x y) as [H|H]; [|done].
      unfold Js.before in H. lia.
Qed.

(** With a comparator that is a total preorder, the sorted array has every
    element before all later ones. *)
Lemma sort_sorted (l : list A) : StronglySorted (Js.before cmp) (Js.sort cmp l).
Proof.
  induction l as [|x l IH]; [constructor|]. by apply insert_sorted_sorted.
Qed.

End Sorting.

Lemma spread2_get (a b : Obj) (k : string) :
  Js.get (spread2 a b) k = match b !! k with Some v => v | None => Js.get a k end.
Proof.
  unfold Js.get, spread2. rewrite lookup_union.
  destruct (b !! k), (a !! k); reflexivity.
Qed.

Lemma strict_eq_true (a b : Value) : strict_eq a b = true ↔ a = b.
Proof. unfold strict_eq. apply bool_decide_eq_true. Qed.

Lemma strict_eq_false (a b : Value) : strict_eq a b = false ↔ a ≠ b.
Proof. unfold strict_eq. apply bool_decide_eq_false. Qed.

Lemma find_none (A : Type) (p : A → bool) (l : list A) :
  (∀ x, x ∈ l → p x = false) → Js.find p l = None.
Proof.
  induction l as [|x l IH]; intros H; simpl; [reflexivity|].
  rewrite (H x) by left. apply IH. intros y Hy. apply H. by right.
Qed.

Lemma find_first (A : Type) (p : A → bool) (pre post : list A) (x : A) :
  (∀ y, y ∈ pre → p y = false) → p x = true → Js.find p (pre ++ x :: post) = Some x.
Proof.
  induction pre as [|y pre IH]; intros Hpre Hx; simpl.
  - by rewrite Hx.
  - rewrite (Hpre y) by left. apply IH; [|done]. intros z Hz. apply Hpre. by right.
Qed.

Lemma findIndex_none (A : Type) (p : A → bool) (l : list A) :
  (∀ x, x ∈ l → p x = false) → Js.findIndex p l = None.
Proof.
  induction l as [|x l IH]; intros H; simpl; [reflexivity|].
  rewrite (H x) by left. rewrite IH; [reflexivity|]. intros y Hy. apply H. by right.
Qed.

Lemma findIndex_first (A : Type) (p : A → bool) (pre post : list A) (x : A) :
  (∀ y, y ∈ pre → p y = false) → p x = true →
  Js.findIndex p (pre ++ x :: post) = Some (length pre).
Proof.
  induction pre as [|y pre IH]; intros Hpre Hx; simpl.
  - by rewrite Hx.
  - rewrite (Hpre y) by left. rewrite IH; [reflexivity| |done].
    intros z Hz. apply Hpre. by right.
Qed.

Lemma findIndex_lt (A : Type) (p : A → bool) (l : list A) (i : nat) :
  Js.findIndex p l = Some i → (i < length l)%nat.
Proof.
  revert i. induction l as [|x l IH]; intros i; simpl; [discriminate|].
  destruct (p x).
  - intros [= <-]. lia.
  - destruct (Js.findIndex p l) as [j|]; simpl; [|discriminate].
    intros [= <-]. specialize (IH j eq_refl). lia.
Qed.

(** ** The in-memory store: [find] *)

Section Find.

Import InMemory.

Variables (r : Repo) (f : Filter) (key dir : string).
Variable more : list (string * string).

Lemma find_unfold (o l : option Z) :
  find (Some f) (Some {| orderBy := Some ((key, dir) :: more); offset := o; limit := l |}) r
  = (Ok (let sorted := ordered f key dir (records r) in
         let results := if truthy_num o then Js.slice sorted (default 0 o) None
                        else sorted in
         if truthy_num l then Js.slice results 0 l else results), r).
Proof. reflexivity. Qed.

(** With a positive limit, [find] is the composition the design document
    gives: filter, sort, drop [o], keep [l]. An offset of [0] skips the
    slicing, which drops nothing either. *)
Lemma find_pagination (o l : Z) :
  0 ≤ o → 0 < l →
  find (Some f) (Some {| orderBy := Some ((key, dir) :: more);
                         offset := Some o; limit := Some l |}) r
  = (Ok (find_spec f key dir o l (records r)), r).
Proof.
  intros Ho Hl. rewrite find_unfold. unfold find_spec.
  do 2 f_equal. simpl.
  destruct (Z.eqb_spec l 0) as [|_]; [lia|]. simpl.
  rewrite slice_to by lia. f_equal.
  destruct (Z.eqb_spec o 0) as [->|_]; simpl.
  - by rewrite drop_0.
  - by apply slice_from.
Qed.

(** With a limit of [0] the test [if (options?.limit)] fails and nothing is
    cut off at the end: [find] returns everything from the offset on. *)
Lemma find_limit_falsy (o : Z) :
  0 ≤ o →
  find (Some f) (Some {| orderBy := Some ((key, dir) :: more);
                         offset := Some o; limit := Some 0 |}) r
  = (Ok (drop (Z.to_nat o) (ordered f key dir (records r))), r).
Proof.
  intros Ho. rewrite find_unfold. do 2 f_equal. simpl.
  destruct (Z.eqb_spec o 0) as [->|_]; simpl.
  - by rewrite drop_0.
  - by apply slice_from.
Qed.





(** An empty [orderBy] has no first entry to take apart: [find] throws. *)
Lemma find_empty_orderBy (filters : option Filter) (o l : option Z) :
  find filters (Some {| orderBy := Some []; offset := o; limit := l |}) r
  = (Throw TypeError, r).
Proof. reflexivity. Qed.

End Find.

Example find_cheapest :
  InMemory.find None (Some (Sample.by_price 0 1)) Sample.shop
  = (Ok [Sample.gadget], Sample.shop).
Proof. vm_compute. reflexivity. Qed.

Example find_second_cheapest :
  InMemory.find (Some []) (Some (Sample.by_price 1 5)) Sample.shop
  = (Ok [Sample.widget], Sample.shop).
Proof. vm_compute. reflexivity. Qed.

Example find_by_name :
  InMemory.find (Some [("name", VStr "Widget")]) None Sample.shop
  = (Ok [Sample.widget], Sample.shop).
Proof. vm_compute. reflexivity. Qed.

Example find_dearest_first :
  InMemory.find None
    (Some {| orderBy := Some [("price", "DESC"); ("name", "ASC")];
             offset := None; limit := None |}) Sample.shop
  = (Ok [Sample.widget; Sample.gadget], Sample.shop).
Proof. vm_compute. reflexivity. Qed.

(** C1. The design document has [find] with offset [o] and limit [l] return
    the slice [[o, o+l)] of the filtered and sorted records, also for
    [l = 0]. On the shop with its two products, [find] with [offset: 0] and
    [limit: 0] returns both of them, where the slice is empty. *)
Theorem find_limit_zero_returns_all :
  InMemory.find (Some []) (Some (Sample.by_price 0 0)) Sample.shop
  = (Ok [Sample.gadget; Sample.widget], Sample.shop)
  ∧ InMemory.find_spec [] "price" "ASC" 0 0 (InMemory.records Sample.shop) = []
  ∧ InMemory.find (Some []) (Some (Sample.by_price 0 0)) Sample.shop
    ≠ (Ok (InMemory.find_spec [] "price" "ASC" 0 0 (InMemory.records Sample.shop)),
       Sample.shop).
Proof.
  split; [vm_compute; reflexivity|]. split; [vm_compute; reflexivity|].
  intros H. apply (f_equal fst) in H. vm_compute in H. discriminate.
Qed.

(** ** The in-memory store: what each operation does to the state *)

Section Operations.

Import InMemory.

Lemma for_each_cons {S A B} (f : A → M S B) (x : A) (l : list A) (s : S) :
  for_each f (x :: l) s =
  match f x s with
  | (Ok y, s1) =>
      match for_each f l s1 with
      | (Ok ys, s2) => (Ok (y :: ys), s2)
      | (Throw e, s2) => (Throw e, s2)
      end
  | (Throw e, s1) => (Throw e, s1)
  end.
Proof.
  simpl. unfold mbind, M_bind. destruct (f x s) as [[y|e] s1]; [|reflexivity].
  destruct (for_each f l s1) as [[ys|e] s2]; reflexivity.
Qed.

Lemma create_eq (data : Obj) (r : Repo) :
  let e := <["id" := assigned_id r data]> data in
  let r1 := if is_nullish (get data "id") then with_drawn (S (drawn r)) r else r in
  create data r = (Ok e, with_heap (<[store r := records r ++ [e]]> (heap r)) r1).
Proof.
  unfold create, assigned_id. destruct (is_nullish (get data "id")); reflexivity.
Qed.

Lemma update_eq (id : string) (data : Obj) (r : Repo) :
  update id data r =
  match Js.findIndex (λ item, strict_eq (get item "id") (VStr id)) (records r) with
  | None => (Ok None, r)
  | Some i =>
      let merged := spread2 (default ∅ (records r !! i)) data in
      let r' := with_heap (<[store r := <[i := merged]> (records r)]> (heap r)) r in
      (Ok (records r' !! i), r')
  end.
Proof.
  unfold update, read_store.
  change ((gets records ≫= ?k) r) with (k (records r) r). cbv beta.
  destruct (Js.findIndex _ (records r)); reflexivity.
Qed.

Lemma delete_eq (id : string) (r : Repo) :
  delete id r =
  (Ok (), with_store (length (heap r))
            (with_heap (heap r ++ [filter (λ item, negb (strict_eq (get item "id") (VStr id)) = true)
                                     (records r)]) r)).
Proof. reflexivity. Qed.

Lemma deleteMany_eq (ids : list string) (r : Repo) :
  deleteMany ids r =
  (Ok (), with_store (length (heap r))
            (with_heap (heap r ++ [filter (λ item, negb (includes ids (get item "id")) = true)
                                     (records r)]) r)).
Proof. reflexivity. Qed.

Lemma beginTransaction_eq (r : Repo) :
  beginTransaction r =
  (Ok (), with_stack (length (heap r) :: transactionStack r)
            (with_heap (heap r ++ [records r]) r)).
Proof. reflexivity. Qed.

Lemma rollbackTransaction_eq (r : Repo) :
  rollbackTransaction r =
  match transactionStack r with
  | a :: st => (Ok (), with_store a (with_stack st r))
  | [] => (Ok (), r)
  end.
Proof.
  unfold rollbackTransaction.
  change ((gets transactionStack ≫= ?k) r) with (k (transactionStack r) r). cbv beta.
  destruct (transactionStack r); reflexivity.
Qed.

(** The live array after a change in place, in a state whose live array is
    allocated. *)
Lemma records_with_heap_insert (r r1 : Repo) (xs : list Obj) :
  (store r < length (heap r))%nat → store r1 = store r →
  records (with_heap (<[store r := xs]> (heap r)) r1) = xs.
Proof.
  intros Hlt Hst. unfold records, array_at. simpl. rewrite Hst.
  by rewrite list_lookup_insert_eq.
Qed.

Lemma records_create (data : Obj) (r : Repo) :
  (store r < length (heap r))%nat →
  records (create data r).2 = records r ++ [<["id" := assigned_id r data]> data].
Proof.
  intros Hlt. rewrite create_eq. cbv zeta. unfold snd.
  apply records_with_heap_insert; [done|].
  by destruct (is_nullish (get data "id")).
Qed.

Lemma records_alloc_store (r : Repo) (xs : list Obj) :
  records (with_store (length (heap r)) (with_heap (heap r ++ [xs]) r)) = xs.
Proof. unfold records, array_at. simpl. by rewrite list_lookup_middle. Qed.

Lemma extends_refl (r : Repo) : (store r < length (heap r))%nat → extends r r.
Proof. intros Hlt. repeat split; done. Qed.

Lemma extends_trans (r1 r2 r3 : Repo) : extends r1 r2 → extends r2 r3 → extends r1 r3.
Proof.
  intros (_ & Hlen12 & Hst12 & H12) (Hlt3 & Hlen23 & Hst23 & H23).
  repeat split; [done|lia|congruence| |].
  - destruct (H12 a) as [Hne2 Heq2]; [done..|].
    destruct (H23 a) as [Hne3 _]; [lia|done|done].
  - destruct (H12 a) as [Hne2 Heq2]; [done..|].
    destruct (H23 a) as [_ Heq3]; [lia|done|congruence].
Qed.

Lemma extends_in_place (r r1 : Repo) (xs : list Obj) :
  (store r < length (heap r))%nat →
  store r1 = store r → transactionStack r1 = transactionStack r →
  extends r (with_heap (<[store r := xs]> (heap r)) r1).
Proof.
  intros Hlt Hst Hstack. unfold extends. simpl. rewrite length_insert, Hst.
  repeat split; [done|lia|done|done|]. by apply list_lookup_insert_ne.
Qed.

Lemma extends_replace (r : Repo) (xs : list Obj) :
  extends r (with_store (length (heap r)) (with_heap (heap r ++ [xs]) r)).
Proof.
  unfold extends. simpl. rewrite length_app. simpl.
  repeat split; [lia|lia|lia|]. by apply lookup_app_l.
Qed.

Lemma create_extends (data : Obj) (r : Repo) :
  (store r < length (heap r))%nat → extends r (create data r).2.
Proof.
  intros Hlt. rewrite create_eq. cbv zeta. unfold snd.
  apply extends_in_place; [done|..]; by destruct (is_nullish (get data "id")).
Qed.

Lemma update_extends (id : string) (data : Obj) (r : Repo) :
  (store r < length (heap r))%nat →
  ∃ o, (update id data r).1 = Ok o ∧ extends r (update id data r).2.
Proof.
  intros Hlt. rewrite update_eq.
  destruct (Js.findIndex _ (records r)) as [i|]; cbv zeta; unfold fst, snd.
  - eexists. split; [reflexivity|]. by apply extends_in_place.
  - eexists. split; [reflexivity|]. by apply extends_refl.
Qed.

(** A loop of calls that each succeed and extend the state does so too. *)
Lemma for_each_extends {A B} (f : A → M Repo B) (l : list A) (r : Repo) :
  (∀ x r, (store r < length (heap r))%nat →
          ∃ y, (f x r).1 = Ok y ∧ extends r (f x r).2) →
  (store r < length (heap r))%nat →
  ∃ ys, (for_each f l r).1 = Ok ys ∧ extends r (for_each f l r).2.
Proof.
  intros Hf. revert r. induction l as [|x l IH]; intros r Hlt.
  - exists []. split; [reflexivity|]. by apply extends_refl.
  - rewrite for_each_cons. destruct (Hf x r Hlt) as (y & Hy & Hext).
    destruct (f x r) as [o r1]. simpl in Hy, Hext. subst o.
    destruct (IH r1) as (ys & Hys & Hext'); [by destruct Hext|].
    destruct (for_each f l r1) as [o r2]. simpl in Hys, Hext'. subst o.
    exists (y :: ys). split; [reflexivity|]. by eapply extends_trans.
Qed.

(** Every record operation succeeds and extends the state. *)
Lemma exec_extends (op : Op) (r : Repo) :
  is_record_op op = true → (store r < length (heap r))%nat →
  (exec op r).1 = Ok () ∧ extends r (exec op r).2.
Proof.
  intros Hop Hlt. destruct op; try discriminate; cbn [exec].
  - unfold mbind, M_bind. pose proof (create_extends data r Hlt) as H.
    rewrite create_eq in H |- *. done.
  - unfold mbind, M_bind.
    destruct (for_each_extends create dataArr r) as (ys & Hys & Hext); [|done|].
    { intros x r' Hr'. eexists. split; [by rewrite create_eq|by apply create_extends]. }
    unfold createMany. by destruct (for_each create dataArr r) as [[?|?] ?].
  - unfold mbind, M_bind. destruct (update_extends id data r Hlt) as (o & Ho & Hext).
    by destruct (update id data r) as [[?|?] ?].
  - unfold mbind, M_bind.
    destruct (for_each_extends (λ u, update u.1 u.2) updates r) as (ys & Hys & Hext);
      [|done|].
    { intros x r' Hr'. by apply update_extends. }
    unfold updateMany. by destruct (for_each _ updates r) as [[?|?] ?].
  - rewrite delete_eq. split; [done|apply extends_replace].
  - rewrite deleteMany_eq. split; [done|apply extends_replace].
Qed.

Lemma exec_all_cons (op : Op) (ops : list Op) (r : Repo) :
  exec_all (op :: ops) r =
  match exec op r with
  | (Ok _, r1) => exec_all ops r1
  | (Throw e, r1) => (Throw e, r1)
  end.
Proof.
  unfold exec_all, mbind, M_bind. rewrite for_each_cons.
  destruct (exec op r) as [[[]|e] r1]; [|reflexivity].
  destruct (for_each exec ops r1) as [[ys|e] r2]; reflexivity.
Qed.

Lemma exec_all_extends (ops : list Op) (r : Repo) :
  forallb is_record_op ops = true → (store r < length (heap r))%nat →
  (exec_all ops r).1 = Ok () ∧ extends r (exec_all ops r).2.
Proof.
  revert r. induction ops as [|op ops IH]; intros r Hops Hlt.
  - split; [done|by apply extends_refl].
  - simpl in Hops. apply andb_true_iff in Hops as [Hop Hops].
    destruct (exec_extends op r Hop Hlt) as [Hok Hext].
    rewrite exec_all_cons.
    destruct (exec op r) as [o r1]. simpl in Hok, Hext. subst o.
    destruct (IH r1 Hops) as [Hok' Hext']; [by destruct Hext|].
    split; [done|]. by eapply extends_trans.
Qed.

End Operations.

(** ** The in-memory store: transactions *)

Section Transactions.

Import InMemory.

(** C2. Whatever record operations run between [beginTransaction()] and
    [rollbackTransaction()], [findAll()] afterwards returns the records the
    store held before, and the transaction stack is back where it was.
    Rolling back with an empty stack raises nothing and changes nothing. *)
Theorem rollback_restores (r : Repo) (ops : list Op) :
  wf r → forallb is_record_op ops = true →
  (∃ r', (_ ← beginTransaction; _ ← exec_all ops; _ ← rollbackTransaction; findAll) r
         = (Ok (records r), r')
         ∧ records r' = records r
         ∧ transactionStack r' = transactionStack r)
  ∧ (transactionStack r = [] → rollbackTransaction r = (Ok (), r)).
Proof.
  intros (Hlt & _ & _) Hops. split.
  - unfold mbind at 1, M_bind at 1. rewrite beginTransaction_eq.
    set (a := length (heap r)).
    set (r1 := with_stack _ _).
    assert (Hlt1 : (store r1 < length (heap r1))%nat).
    { subst r1. simpl. rewrite length_app. simpl. lia. }
    destruct (exec_all_extends ops r1 Hops Hlt1) as [Hok (Hlt2 & Hlen & Hst & Hkeep)].
    unfold mbind at 1, M_bind at 1.
    destruct (exec_all ops r1) as [o r2]. simpl in Hok, Hlt2, Hlen, Hst, Hkeep. subst o.
    destruct (Hkeep a) as [Hne Ha].
    { rewrite length_app. simpl. lia. }
    { lia. }
    rewrite list_lookup_middle in Ha by done.
    unfold mbind at 1, M_bind at 1. rewrite rollbackTransaction_eq, Hst.
    eexists. split; [|split].
    + unfold findAll, read_store, gets. f_equal. f_equal.
      unfold records, array_at. simpl. by rewrite Ha.
    + unfold records at 1, array_at. simpl. by rewrite Ha.
    + reflexivity.
  - intros Hempty. by rewrite rollbackTransaction_eq, Hempty.
Qed.

Lemma rollback_restores_witness :
  wf Sample.shop ∧
  ∃ r', (_ ← beginTransaction;
         _ ← exec_all [Create Sample.widget; Update "p2" (<["price" := VNum 60]> ∅);
                       Delete "p1"; DeleteMany ["p2"]];
         _ ← rollbackTransaction; findAll) Sample.shop
        = (Ok (records Sample.shop), r').
Proof.
  split; [compute_done|].
  destruct (rollback_restores Sample.shop
              [Create Sample.widget; Update "p2" (<["price" := VNum 60]> ∅);
               Delete "p1"; DeleteMany ["p2"]]) as [(r' & H & _) _].
  - compute_done.
  - reflexivity.
  - by exists r'.
Defined.

Example nested_rollback :
  ((_ ← beginTransaction; _ ← delete "p1";
    _ ← beginTransaction; _ ← delete "p2";
    _ ← rollbackTransaction; findAll) Sample.shop).1
  = Ok [Sample.gadget].
Proof. vm_compute. reflexivity. Qed.

Example commit_keeps_changes :
  ((_ ← beginTransaction; _ ← delete "p1"; _ ← commitTransaction;
    _ ← rollbackTransaction; findAll) Sample.shop).1
  = Ok [Sample.gadget].
Proof. vm_compute. reflexivity. Qed.

(** C9. [commitTransaction()] with nothing on the transaction stack raises
    nothing and leaves the store, its live records included, as it was. *)
Theorem commit_empty_stack (r : Repo) :
  transactionStack r = [] →
  commitTransaction r = (Ok (), r) ∧ records (commitTransaction r).2 = records r.
Proof.
  intros Hempty. unfold commitTransaction, modify. rewrite Hempty. simpl.
  destruct r as [h s st u d]. simpl in Hempty. subst st. done.
Qed.

Lemma commit_empty_stack_witness :
  transactionStack Sample.shop = [] ∧
  commitTransaction Sample.shop = (Ok (), Sample.shop).
Proof.
  split; [reflexivity|]. apply (commit_empty_stack Sample.shop). reflexivity.
Defined.

End Transactions.

(** ** The in-memory store: records and their identifiers *)

Section Records.

Import InMemory.

Lemma has_id_false (xs : list Obj) (id : string) :
  VStr id ∉ ids_of xs →
  ∀ x, x ∈ xs → strict_eq (get x "id") (VStr id) = false.
Proof.
  intros Hnot x Hx. apply strict_eq_false. intros Heq. apply Hnot.
  rewrite <- Heq. unfold ids_of. by apply (list_elem_of_fmap_2 (λ x, get x "id")).
Qed.

(** C7. [update(id, partial)] with an [id] no stored record has returns
    [null], raises nothing and leaves the store as it was. With an [id] that
    is there, the first record that has it is replaced, in its place, by
    the record with the partial's properties laid over its own, and that
    record is returned; every other record stays. *)
Theorem update_by_id (r : Repo) (id : string) (data : Obj) :
  wf r →
  (VStr id ∉ ids_of (records r) → update id data r = (Ok None, r))
  ∧ (∀ pre old post,
       records r = pre ++ old :: post →
       VStr id ∉ ids_of pre → get old "id" = VStr id →
       ∃ merged r',
         update id data r = (Ok (Some merged), r')
         ∧ (∀ k, get merged k = match data !! k with
                                | Some v => v
                                | None => get old k
                                end)
         ∧ records r' = pre ++ merged :: post
         ∧ transactionStack r' = transactionStack r).
Proof.
  intros (Hlt & _ & _). split.
  - intros Hnot. rewrite update_eq.
    by rewrite findIndex_none by by apply has_id_false.
  - intros pre old post Hrec Hpre Hold. rewrite update_eq, Hrec.
    rewrite findIndex_first; [|by apply has_id_false|by apply strict_eq_true].
    cbv zeta. rewrite list_lookup_middle by done. simpl default.
    rewrite records_with_heap_insert by done.
    replace (length pre) with (length pre + 0)%nat by lia.
    rewrite insert_app_r. simpl. rewrite list_lookup_middle by lia.
    exists (spread2 old data). eexists. split; [reflexivity|].
    split; [apply spread2_get|]. split; [|reflexivity].
    apply records_with_heap_insert; done.
Qed.

Lemma update_by_id_witness :
  wf Sample.shop
  ∧ update "p3" (<["price" := VNum 60]> ∅) Sample.shop = (Ok None, Sample.shop)
  ∧ ∃ merged r',
      update "p2" (<["price" := VNum 60]> ∅) Sample.shop = (Ok (Some merged), r')
      ∧ get merged "price" = VNum 60
      ∧ get merged "name" = VStr "Gadget"
      ∧ records r' = [Sample.widget; merged].
Proof.
  split; [compute_done|].
  destruct (update_by_id Sample.shop "p3" (<["price" := VNum 60]> ∅)) as [Hnone _];
    [compute_done|].
  destruct (update_by_id Sample.shop "p2" (<["price" := VNum 60]> ∅)) as [_ Hsome];
    [compute_done|].
  split.
  - apply Hnone. vm_compute. intros H.
    repeat (apply elem_of_cons in H as [H|H]; [discriminate|]).
    by apply elem_of_nil in H.
  - destruct (Hsome [Sample.widget] Sample.gadget []) as (merged & r' & Hup & Hget & Hrec & _).
    + vm_compute. reflexivity.
    + vm_compute. intros H.
      repeat (apply elem_of_cons in H as [H|H]; [discriminate|]).
      by apply elem_of_nil in H.
    + vm_compute. reflexivity.
    + exists merged, r'. split; [done|]. split; [by rewrite Hget|].
      split; [by rewrite Hget|done].
Defined.

(** The queries leave the store as it is. *)
Lemma queries_keep_state (r : Repo) (id : string) (f : Filter)
  (filters : option Filter) (options : option FindOptions) :
  (findById id r).2 = r ∧ (findOne f r).2 = r ∧ (findAll r).2 = r
  ∧ (find filters options r).2 = r.
Proof.
  repeat split. unfold find, read_store.
  change ((gets records ≫= ?k) r) with (k (records r) r). cbv beta.
  unfold mbind, M_bind.
  destruct (opt options orderBy) as [[|[key dir] entries]|]; reflexivity.
Qed.

(** C6, as the store has it. When the identifier the new record gets,
    supplied or generated, is a string that no stored record has,
    [create(p)] followed by [findById] of that identifier returns the
    record [create] returned. *)
Theorem create_then_findById (r : Repo) (data : Obj) (i : string) :
  wf r → assigned_id r data = VStr i → VStr i ∉ ids_of (records r) →
  ∃ created r',
    create data r = (Ok created, r')
    ∧ get created "id" = VStr i
    ∧ findById i r' = (Ok (Some created), r').
Proof.
  intros (Hlt & _ & _) Hid Hfresh.
  pose proof (records_create data r Hlt) as Hrec. rewrite create_eq in Hrec |- *.
  cbv zeta in *. unfold snd in Hrec. rewrite Hid in *.
  eexists _, _. split; [reflexivity|].
  assert (Hget : get (<["id" := VStr i]> data) "id" = VStr i).
  { unfold get. by rewrite lookup_insert_eq. }
  split; [done|].
  unfold findById, read_store.
  change ((gets records ≫= ?k) ?s) with (k (records s) s). cbv beta.
  rewrite Hrec. unfold mret, M_ret. do 2 f_equal.
  apply find_first; [by apply has_id_false|by apply strict_eq_true].
Qed.

Lemma create_then_findById_witness :
  wf Sample.shop
  ∧ assigned_id Sample.shop (<["name" := VStr "Gizmo"]> ∅) = VStr "uuid-"
  ∧ ∃ created r',
      create (<["name" := VStr "Gizmo"]> ∅) Sample.shop = (Ok created, r')
      ∧ get created "id" = VStr "uuid-"
      ∧ findById "uuid-" r' = (Ok (Some created), r').
Proof.
  split; [compute_done|]. split; [reflexivity|].
  apply (create_then_findById Sample.shop (<["name" := VStr "Gizmo"]> ∅) "uuid-");
    [compute_done|reflexivity|].
  vm_compute. intros H. repeat (apply elem_of_cons in H as [H|H]; [discriminate|]).
  by apply elem_of_nil in H.
Defined.

(** C6 fails when the partial carries an identifier that is taken: the
    shop holds the widget under ["p1"], [create] of another record with
    that identifier succeeds, and [findById("p1")] still returns the
    widget. *)
Lemma create_findById_counterexample :
  wf Sample.shop
  ∧ (create Sample.copycat Sample.shop).1 = Ok Sample.copycat
  ∧ get Sample.copycat "id" = VStr "p1"
  ∧ (findById "p1" (create Sample.copycat Sample.shop).2).1 = Ok (Some Sample.widget)
  ∧ Sample.widget ≠ Sample.copycat.
Proof.
  split; [compute_done|]. repeat split; try (vm_compute; reflexivity).
  intros H. apply (f_equal (λ o, get o "name")) in H. vm_compute in H. discriminate.
Qed.

End Records.

(** ** The in-memory store: distinct identifiers *)

Section Identifiers.

Import InMemory.

Lemma extends_wf (r r' : Repo) : wf r → extends r r' → wf r'.
Proof.
  intros (Hlt & Hall & Hnd) (Hlt' & Hlen & Hst & Hkeep). unfold wf. rewrite Hst.
  repeat split; [done| |done].
  eapply Forall_impl; [exact Hall|]. intros a [Ha Hne]. simpl.
  split; [lia|]. by apply Hkeep.
Qed.

Lemma extends_snapshots (r r' : Repo) :
  wf r → extends r r' →
  Forall (λ a, NoDup (ids_of (array_at r a))) (transactionStack r) →
  Forall (λ a, NoDup (ids_of (array_at r' a))) (transactionStack r').
Proof.
  intros (Hlt & Hall & Hnd) (Hlt' & Hlen & Hst & Hkeep) Hsnap. rewrite Hst.
  rewrite Forall_forall in Hall, Hsnap |- *. intros a Ha.
  destruct (Hall a Ha) as [Hlta Hne]. destruct (Hkeep a Hlta Hne) as [_ Heq].
  unfold array_at. rewrite Heq. by apply Hsnap.
Qed.

(** A record operation keeps the invariant when the live array it leaves
    has distinct identifiers. *)
Lemma extends_distinct (r r' : Repo) :
  wf r → ids_apart r → extends r r' → NoDup (ids_of (records r')) →
  wf r' ∧ ids_apart r'.
Proof.
  intros Hwf [_ Hsnap] Hext Hnd. split; [by eapply extends_wf|].
  split; [done|by eapply extends_snapshots].
Qed.

Lemma create_distinct (data : Obj) (r : Repo) :
  wf r → ids_apart r → assigned_id r data ∉ ids_of (records r) →
  wf (create data r).2 ∧ ids_apart (create data r).2.
Proof.
  intros Hwf Hd Hfresh. pose proof Hwf as (Hlt & _ & _).
  apply (extends_distinct r); [done|done|by apply create_extends|].
  rewrite records_create by done. unfold ids_of. rewrite fmap_app. simpl.
  replace (get (<["id" := assigned_id r data]> data) "id") with (assigned_id r data)
    by (unfold get; by rewrite lookup_insert_eq).
  apply NoDup_app. split; [by destruct Hd|]. split; [|apply NoDup_singleton].
  intros v Hv Hin. apply list_elem_of_singleton in Hin. by subst v.
Qed.

Lemma createMany_step (data : Obj) (rest : list Obj) (r : Repo) :
  (createMany (data :: rest) r).2 = (createMany rest (create data r).2).2.
Proof.
  unfold createMany. rewrite for_each_cons, create_eq. cbv zeta. unfold snd at 3.
  by destruct (for_each create rest _) as [[?|?] ?].
Qed.

Lemma updateMany_step (u : string * Obj) (rest : list (string * Obj)) (r : Repo) :
  (updateMany (u :: rest) r).2 = (updateMany rest (update u.1 u.2 r).2).2.
Proof.
  unfold updateMany. rewrite for_each_cons, update_eq.
  destruct (Js.findIndex _ (records r)); cbv zeta; unfold snd at 3;
    by destruct (for_each _ rest _) as [[?|?] ?].
Qed.

Lemma filter_distinct (P : Obj → Prop) `{∀ x, Decision (P x)} (xs : list Obj) :
  NoDup (ids_of xs) → NoDup (ids_of (filter P xs)).
Proof.
  intros Hnd. eapply sublist_NoDup; [exact Hnd|].
  unfold ids_of. apply fmap_sublist. apply sublist_filter.
Qed.

Lemma replace_distinct (r : Repo) (P : Obj → Prop) `{∀ x, Decision (P x)} :
  wf r → ids_apart r →
  let r' := with_store (length (heap r)) (with_heap (heap r ++ [filter P (records r)]) r) in
  wf r' ∧ ids_apart r'.
Proof.
  intros Hwf Hd r'. apply (extends_distinct r); [done|done|apply extends_replace|].
  subst r'. rewrite records_alloc_store. apply filter_distinct. by destruct Hd.
Qed.

Lemma beginTransaction_distinct (r : Repo) :
  wf r → ids_apart r →
  wf (beginTransaction r).2 ∧ ids_apart (beginTransaction r).2.
Proof.
  intros (Hlt & Hall & Hnd) [Hlive Hsnap]. rewrite beginTransaction_eq. unfold snd.
  rewrite Forall_forall in Hall, Hsnap.
  assert (Hrec : ∀ a, (a < length (heap r))%nat →
            array_at (with_stack (length (heap r) :: transactionStack r)
                        (with_heap (heap r ++ [records r]) r)) a = array_at r a).
  { intros a Ha. unfold array_at. simpl. by rewrite lookup_app_l. }
  split; [split; [|split]|split]; simpl.
  - rewrite length_app. simpl. lia.
  - rewrite length_app. simpl. constructor; [lia|].
    apply Forall_forall. intros a Ha. destruct (Hall a Ha). lia.
  - constructor; [|done]. intros Hin. destruct (Hall _ Hin). lia.
  - unfold records. by rewrite Hrec.
  - constructor.
    + unfold array_at. simpl. by rewrite list_lookup_middle.
    + apply Forall_forall. intros a Ha. destruct (Hall a Ha).
      rewrite Hrec by done. by apply Hsnap.
Qed.

Lemma commitTransaction_distinct (r : Repo) :
  wf r → ids_apart r →
  wf (commitTransaction r).2 ∧ ids_apart (commitTransaction r).2.
Proof.
  intros (Hlt & Hall & Hnd) [Hlive Hsnap]. unfold commitTransaction, modify. simpl.
  split; [split; [|split]|split]; simpl; [done| | |done|].
  - by apply Forall_tail.
  - destruct (transactionStack r); [done|]. by apply NoDup_cons_1_2 in Hnd.
  - by apply (Forall_tail _ (transactionStack r)).
Qed.

Lemma rollbackTransaction_distinct (r : Repo) :
  wf r → ids_apart r →
  wf (rollbackTransaction r).2 ∧ ids_apart (rollbackTransaction r).2.
Proof.
  intros Hwf Hd. rewrite rollbackTransaction_eq.
  destruct (transactionStack r) as [|a st] eqn:Hst; [done|].
  destruct Hwf as (Hlt & Hall & Hnd). destruct Hd as [Hlive Hsnap].
  rewrite Hst in Hall, Hnd, Hsnap.
  apply Forall_cons in Hall as [[Ha _] Hall]. apply Forall_cons in Hsnap as [Hsa Hsnap].
  apply NoDup_cons in Hnd as [Hnotin Hnd].
  split; [split; [|split]|split]; simpl; [done| |done|done|done].
  rewrite Forall_forall in Hall |- *. intros b Hb. destruct (Hall b Hb).
  split; [done|]. intros ->. done.
Qed.

Lemma new_distinct (u : nat → string) : wf (new u) ∧ ids_apart (new u).
Proof.
  split; [split; [|split]|split]; simpl; constructor.
Qed.

Lemma transaction_wf (op : Op) (r : Repo) :
  is_record_op op = false → wf r → wf (exec op r).2.
Proof.
  intros Hop (Hlt & Hall & Hnd). destruct op; try discriminate; cbn [exec].
  - rewrite beginTransaction_eq. unfold snd. rewrite Forall_forall in Hall.
    split; [|split]; simpl; rewrite ?length_app; simpl.
    + lia.
    + constructor; [lia|]. apply Forall_forall. intros a Ha. destruct (Hall a Ha). lia.
    + constructor; [|done]. intros Hin. destruct (Hall _ Hin). lia.
  - unfold commitTransaction, modify. split; [|split]; simpl; [done| |].
    + by apply Forall_tail.
    + destruct (transactionStack r); [done|]. by apply NoDup_cons_1_2 in Hnd.
  - rewrite rollbackTransaction_eq.
    destruct (transactionStack r) as [|a st] eqn:Hst; [by rewrite <- Hst in Hall, Hnd|].
    apply Forall_cons in Hall as [[Ha _] Hall]. apply NoDup_cons in Hnd as [Hnotin Hnd].
    split; [|split]; simpl; [done| |done].
    rewrite Forall_forall in Hall |- *. intros b Hb. destruct (Hall b Hb).
    split; [done|]. intros ->. done.
Qed.

(** Every state the operations reach is well formed. *)
Lemma reachable_wf (u : nat → string) (r : Repo) : reachable u r → wf r.
Proof.
  induction 1 as [|r op _ Hwf].
  - split; [|split]; simpl; constructor.
  - destruct (is_record_op op) eqn:Hop.
    + eapply extends_wf; [exact Hwf|]. apply exec_extends; [done|by destruct Hwf].
    + by apply transaction_wf.
Qed.

End Identifiers.

(** ** The remote store *)

(** C8. On a remote store, whatever its base URL, whatever the client and
    the network do and whatever was called before, each of the three
    transaction calls throws the error ["Operation not supported."] and
    sends nothing. *)
Theorem transactions_unsupported
  (Net : Type) (axios : ∀ sh, Rest.Request → M Net (Rest.response_data sh))
  (this : Rest.RestRepository) (history : list Rest.Call) (net : Net) :
  let net' := Rest.after axios this history net in
  Rest.beginTransaction net' = (Throw (Err "Operation not supported."), net')
  ∧ Rest.commitTransaction net' = (Throw (Err "Operation not supported."), net')
  ∧ Rest.rollbackTransaction net' = (Throw (Err "Operation not supported."), net').
Proof. repeat split. Qed.

(** ** The record service *)

Section Service.

Import BaseService.

Context {R : Type} {repo : IRepository.t R}.
Variable entity : EntityClass.

Lemma validateOrReject_violations {S} (instance : Obj) (s : S) :
  validate entity instance ≠ [] →
  validateOrReject entity instance s
  = (Throw (ValidationErrors (validate entity instance)), s).
Proof. intros Hne. unfold validateOrReject. by destruct (validate entity instance). Qed.

(** C3. When the data, laid over a new instance of the record type, breaks
    a declared rule, [create] of a service with the default [beforeCreate]
    fails with the violations and leaves the store in the state it had.
    The store may be any implementation of the contract: for one that
    records its calls, the record of calls is part of the state and stays
    as it was, so no call has reached the store, and the records it holds
    are the same. *)
Theorem create_validation_gate (this : Hooks R) (data : Obj) (s : R) :
  beforeCreate this = beforeCreate (base entity) →
  validate entity (Object_assign (construct entity) data) ≠ [] →
  create this data s
  = (Throw (ValidationErrors (validate entity (Object_assign (construct entity) data))), s).
Proof.
  intros Hhook Hbad. unfold create. rewrite Hhook.
  unfold mbind at 1, M_bind at 1. cbn [beforeCreate base].
  by rewrite validateOrReject_violations.
Qed.

(** Data that breaks no rule passes the gate: the default hooks hand it to
    the store's [create] and return what the store returns. *)
Lemma create_valid_reaches_store (data : Obj) (s : R) :
  validate entity (Object_assign (construct entity) data) = [] →
  create (base entity) data s = IRepository.create data s.
Proof.
  intros Hok. unfold create. cbn [beforeCreate afterCreate base].
  unfold validateOrReject. rewrite Hok. unfold mbind, M_bind, mret, M_ret.
  by destruct (IRepository.create data s) as [[?|?] ?].
Qed.

(** The default [beforeUpdate] looks at neither the identifier nor the
    store: it validates the partial laid over a new instance. *)
Lemma beforeUpdate_default (id : string) (data : Obj) (s : R) :
  beforeUpdate (base entity) id data s
  = validateOrReject entity (Object_assign (construct entity) data) s.
Proof. reflexivity. Qed.

(** With the default hooks, [update] is turned down as soon as the partial
    by itself breaks a rule, whatever the store holds. *)
Lemma update_validates_partial_alone (id : string) (data : Obj) (s : R) :
  validate entity (Object_assign (construct entity) data) ≠ [] →
  update (base entity) id data s
  = (Throw (ValidationErrors (validate entity (Object_assign (construct entity) data))), s).
Proof.
  intros Hbad. unfold update. unfold mbind at 1, M_bind at 1.
  rewrite beforeUpdate_default. by rewrite validateOrReject_violations.
Qed.

End Service.

Lemma create_validation_gate_witness :
  BaseService.validate ProductReview.entity
    (BaseService.Object_assign (BaseService.construct ProductReview.entity) Sample.blank)
  = [{| property := "review"; value := VStr ""; constraints := ["isNotEmpty"] |}]
  ∧ BaseService.create (BaseService.base ProductReview.entity) Sample.blank Sample.fresh_spy
    = (Throw (ValidationErrors
                [{| property := "review"; value := VStr "";
                    constraints := ["isNotEmpty"] |}]),
       Sample.fresh_spy).
Proof.
  split; [vm_compute; reflexivity|].
  apply (create_validation_gate ProductReview.entity
           (BaseService.base ProductReview.entity) Sample.blank Sample.fresh_spy).
  - reflexivity.
  - vm_compute. discriminate.
Defined.

Example create_review_reaches_store :
  BaseService.create (BaseService.base ProductReview.entity) Sample.praise
    {| Spy.calls := []; Spy.inner := InMemory.new Sample.uuid |}
  = (Ok Sample.praise, {| Spy.calls := [Spy.create Sample.praise]; Spy.inner := Sample.reviews |}).
Proof. vm_compute. reflexivity. Qed.

(** C4. The stored review meets the rules of its type, and so does the
    review with the new text laid over it. The service's [update] with the
    partial that carries the new text alone fails all the same: the default
    [beforeUpdate] validates the partial by itself, where [id] is missing,
    and the store is not called. *)
Theorem update_rejects_partial :
  InMemory.records Sample.reviews = [Sample.praise]
  ∧ BaseService.validate ProductReview.entity Sample.praise = []
  ∧ BaseService.validate ProductReview.entity (spread2 Sample.praise Sample.reworded) = []
  ∧ BaseService.update (BaseService.base ProductReview.entity) "r1" Sample.reworded
      Sample.fresh_spy
    = (Throw (ValidationErrors
                [{| property := "id"; value := VUndef; constraints := ["isString"] |}]),
       Sample.fresh_spy).
Proof. repeat split; vm_compute; reflexivity. Qed.

(** * More properties of the stores and the service *)

(** ** The in-memory store: deleting *)

Section Deleting.

Import InMemory.

Lemma keeps_other_ids (id : string) (x : Obj) :
  negb (strict_eq (get x "id") (VStr id)) = true ↔ get x "id" ≠ VStr id.
Proof. rewrite negb_true_iff. apply strict_eq_false. Qed.

Lemma includes_spec (ids : list string) (v : Value) :
  includes ids v = true ↔ ∃ i, i ∈ ids ∧ v = VStr i.
Proof.
  unfold includes. rewrite existsb_exists. split.
  - intros (i & Hi & Heq). apply strict_eq_true in Heq.
    exists i. split; [by apply list_elem_of_In|done].
  - intros (i & Hi & ->). exists i. split; [by apply list_elem_of_In|].
    by apply strict_eq_true.
Qed.

(** X1. [delete(id)] removes every record with that identifier and keeps
    the others in their order; [findById(id)] finds nothing afterwards, and
    a second [delete(id)] changes no record. An identifier the store does
    not hold leaves the records as they are. *)
Theorem delete_removes (r : Repo) (id : string) :
  let r' := (delete id r).2 in
  (delete id r).1 = Ok ()
  ∧ (∀ x, x ∈ records r' ↔ x ∈ records r ∧ get x "id" ≠ VStr id)
  ∧ records r' `sublist_of` records r
  ∧ findById id r' = (Ok None, r')
  ∧ records (delete id r').2 = records r'
  ∧ (VStr id ∉ ids_of (records r) → records r' = records r).
Proof.
  cbv zeta. rewrite !delete_eq. unfold snd, fst. rewrite !records_alloc_store.
  split; [done|]. split; [|split; [|split; [|split]]].
  - intros x. rewrite list_elem_of_filter, keeps_other_ids. tauto.
  - apply sublist_filter.
  - unfold findById, read_store.
    change ((gets records ≫= ?k) ?s) with (k (records s) s). cbv beta.
    rewrite records_alloc_store. unfold mret, M_ret. do 2 f_equal.
    apply find_none. intros x Hx. apply list_elem_of_filter in Hx as [Hx _].
    by apply negb_true_iff in Hx.
  - rewrite list_filter_filter. apply list_filter_iff. tauto.
  - intros Hnot. induction (records r) as [|x xs IH]; [done|].
    unfold ids_of in Hnot. simpl in Hnot. apply not_elem_of_cons in Hnot as [Hx Hxs].
    rewrite filter_cons_True by (apply keeps_other_ids; congruence).
    f_equal. by apply IH.
Qed.

Lemma for_each_delete_step (id : string) (ids : list string) (r : Repo) :
  (for_each delete (id :: ids) r).2 = (for_each delete ids (delete id r).2).2
  ∧ ((for_each delete ids (delete id r).2).1 = Ok (replicate (length ids) ()) →
     (for_each delete (id :: ids) r).1 = Ok (replicate (S (length ids)) ())).
Proof.
  rewrite for_each_cons, delete_eq. unfold snd at 3. unfold snd at 2.
  destruct (for_each delete ids _) as [[ys|e] r2]; simpl; [|done].
  split; [done|]. by intros [= ->].
Qed.

Lemma not_included (ids : list string) (x : Obj) :
  negb (includes ids (get x "id")) = true ↔ ∀ i, i ∈ ids → get x "id" ≠ VStr i.
Proof.
  rewrite negb_true_iff, <- not_true_iff_false, includes_spec. split.
  - intros Hno i Hi Heq. apply Hno. eauto.
  - intros Hall (i & Hi & Heq). by eapply Hall.
Qed.

Lemma records_for_each_delete (ids : list string) (r : Repo) :
  records (for_each delete ids r).2
  = filter (λ item, negb (includes ids (get item "id")) = true) (records r).
Proof.
  revert r. induction ids as [|id ids IH]; intros r.
  - simpl. induction (records r) as [|x xs IHxs]; [done|].
    by rewrite filter_cons_True, <- IHxs.
  - destruct (for_each_delete_step id ids r) as [-> _]. rewrite IH.
    rewrite delete_eq. unfold snd. rewrite records_alloc_store.
    rewrite list_filter_filter. apply list_filter_iff. intros x.
    rewrite keeps_other_ids, !not_included. split.
    + intros [Hids Hid] i Hi. apply elem_of_cons in Hi as [->|Hi]; [done|by apply Hids].
    + intros Hall. split; [intros i Hi; apply Hall; by right|apply Hall; by left].
Qed.

(** X2. [deleteMany(ids)] leaves the records that a [delete] for each of the
    identifiers, one after the other, leaves: those whose identifier is
    none of [ids], in their order. With no identifier it removes nothing. *)
Theorem deleteMany_as_deletes (r : Repo) (ids : list string) :
  (deleteMany ids r).1 = Ok ()
  ∧ records (deleteMany ids r).2 = records (for_each delete ids r).2
  ∧ (∀ x, x ∈ records (deleteMany ids r).2
          ↔ x ∈ records r ∧ ∀ i, i ∈ ids → get x "id" ≠ VStr i)
  ∧ records (deleteMany ids r).2 `sublist_of` records r
  ∧ records (deleteMany [] r).2 = records r.
Proof.
  rewrite records_for_each_delete, !deleteMany_eq. unfold snd, fst.
  rewrite !records_alloc_store. split; [done|]. split; [done|]. split; [|split].
  - intros x. rewrite list_elem_of_filter, not_included. tauto.
  - apply sublist_filter.
  - simpl. induction (records r) as [|x xs IHxs]; [done|].
    by rewrite filter_cons_True, IHxs.
Qed.

End Deleting.

(** ** The in-memory store: looking records up *)

Section Finding.

Import InMemory.

Lemma find_head_filter {A} (p : A → bool) (l : list A) :
  Js.find p l = head (filter (λ x, p x = true) l).
Proof.
  induction l as [|x l IH]; [done|]. simpl. destruct (p x) eqn:Hp.
  - by rewrite filter_cons_True.
  - rewrite filter_cons_False by congruence. done.
Qed.

Lemma matchesFilter_spec (item : Obj) (f : Filter) :
  matchesFilter item f = true ↔ ∀ k v, (k, v) ∈ f → get item k = v.
Proof.
  unfold matchesFilter. rewrite forallb_forall. split.
  - intros H k v Hin. apply strict_eq_true. by apply (H (k, v)), list_elem_of_In.
  - intros H [k v] Hin. apply strict_eq_true. by apply H, list_elem_of_In.
Qed.

Lemma find_plain (f : Filter) (r : Repo) :
  find (Some f) None r = (Ok (filter (λ item, matchesFilter item f = true) (records r)), r).
Proof. reflexivity. Qed.

(** X3. [findOne(filters)] returns the first record of [find(filters)], and
    [null] when [find] returns none; [findById(id)] is [findOne] with the
    filter [{id}]. *)
Theorem lookups_agree_with_find (r : Repo) (f : Filter) (id : string) :
  (∃ results,
      find (Some f) None r = (Ok results, r)
      ∧ findOne f r = (Ok (head results), r))
  ∧ findById id r = findOne [("id", VStr id)] r.
Proof.
  split.
  - eexists. split; [apply find_plain|].
    unfold findOne, read_store.
    change ((gets records ≫= ?k) r) with (k (records r) r). cbv beta.
    by rewrite find_head_filter.
  - unfold findById, findOne, read_store.
    change ((gets records ≫= ?k) r) with (k (records r) r). cbv beta.
    unfold mret, M_ret. do 2 f_equal.
    induction (records r) as [|x xs IH]; [done|]. simpl.
    rewrite andb_true_r. by rewrite IH.
Qed.

(** X4. [find(filters)] without options returns, in the order of the store,
    exactly the records whose fields equal every entry of the filter; a
    field the record lacks equals [undefined] and nothing else. An empty
    filter, like no filter at all, returns what [findAll()] returns. *)
Theorem find_filter_correct (r : Repo) (f : Filter) :
  (∃ results,
      find (Some f) None r = (Ok results, r)
      ∧ results `sublist_of` records r
      ∧ ∀ x, x ∈ results ↔ x ∈ records r ∧ ∀ k v, (k, v) ∈ f → get x k = v)
  ∧ (∀ x k v, (k, v) ∈ f → x !! k = None → v ≠ VUndef →
              ∀ results, find (Some f) None r = (Ok results, r) → x ∉ results)
  ∧ find (Some []) None r = findAll r
  ∧ find None None r = findAll r.
Proof.
  split; [|split; [|split]].
  - eexists. split; [apply find_plain|]. split; [apply sublist_filter|].
    intros x. rewrite list_elem_of_filter, matchesFilter_spec. tauto.
  - intros x k v Hin Hnone Hv results. rewrite find_plain. intros [= <-].
    rewrite list_elem_of_filter, matchesFilter_spec. intros [Hall _].
    specialize (Hall k v Hin). unfold get in Hall. rewrite Hnone in Hall. done.
  - rewrite find_plain. unfold findAll, read_store, gets. do 2 f_equal.
    induction (records r) as [|x xs IH]; [done|]. by rewrite filter_cons_True, IH.
  - reflexivity.
Qed.

Lemma slice_sublist {A} (l : list A) (start : Z) (end_ : option Z) :
  Js.slice l start end_ `sublist_of` l.
Proof.
  unfold Js.slice. etrans; [apply sublist_take|apply sublist_drop].
Qed.

(** X5. Whatever the filter and the options, [find] leaves the store as it
    is, and it throws in one case only: an [orderBy] without an entry, with
    a [TypeError]. What it returns otherwise are stored records, none more
    often than the store holds it, each matching the filter; a positive
    limit bounds their number. *)
Theorem find_returns_stored_matches
  (r : Repo) (filters : option Filter) (options : option FindOptions) :
  (find filters options r).2 = r
  ∧ match (find filters options r).1 with
    | Throw e => e = TypeError ∧ opt options orderBy = Some []
    | Ok results =>
        opt options orderBy ≠ Some []
        ∧ results ⊆+ records r
        ∧ (∀ f x, filters = Some f → x ∈ results → matchesFilter x f = true)
        ∧ (∀ l, opt options limit = Some l → 0 < l → (length results ≤ Z.to_nat l)%nat)
    end.
Proof.
  split; [apply (queries_keep_state r "" [] filters options)|].
  unfold find, read_store.
  change ((gets records ≫= ?k) r) with (k (records r) r). cbv beta zeta.
  set (matching := match filters with
                   | Some f => filter (λ item, matchesFilter item f = true) (records r)
                   | None => records r
                   end).
  assert (Hsub : matching `sublist_of` records r).
  { subst matching. destruct filters; [apply sublist_filter|done]. }
  assert (Hmatch : ∀ f x, filters = Some f → x ∈ matching → matchesFilter x f = true).
  { intros f x -> Hx. subst matching. by apply list_elem_of_filter in Hx as [Hx _]. }
  assert (Hpage : ∀ ordered, ordered ≡ₚ matching →
    let from := if truthy_num (opt options offset)
                then Js.slice ordered (default 0 (opt options offset)) None
                else ordered in
    let results := if truthy_num (opt options limit)
                   then Js.slice from 0 (opt options limit)
                   else from in
    results ⊆+ records r
    ∧ (∀ f x, filters = Some f → x ∈ results → matchesFilter x f = true)
    ∧ (∀ l, opt options limit = Some l → 0 < l → (length results ≤ Z.to_nat l)%nat)).
  { intros ordered Hperm from results.
    assert (Hres : results `sublist_of` ordered).
    { subst results from.
      destruct (truthy_num (opt options limit)), (truthy_num (opt options offset));
        repeat (etrans; [apply slice_sublist|]); done. }
    assert (Hin : results ⊆+ matching).
    { apply submseteq_sublist_l. by exists ordered. }
    split; [|split].
    - etrans; [exact Hin|]. by apply sublist_submseteq.
    - intros f x Hf Hx. apply (Hmatch f x Hf). eapply elem_of_submseteq; done.
    - intros l Hl Hpos. subst results. rewrite Hl. simpl.
      destruct (Z.eqb_spec l 0) as [|_]; [lia|]. simpl.
      rewrite slice_to by lia. rewrite length_take. lia. }
  unfold mbind, M_bind.
  destruct (opt options orderBy) as [[|[key dir] entries]|]; simpl.
  - done.
  - split; [done|]. apply Hpage, sort_Permutation.
  - split; [done|]. by apply Hpage.
Qed.

End Finding.

(** ** The in-memory store: ordering and pages *)

Section Ordering.

Import InMemory.

Variables (key dir : string).







(** X7. A page is a slice of the whole result: for an offset [o ≥ 0] and a
    limit [l > 0], [find] returns the [l] records that follow the first [o]
    of what it returns for the same filter and [orderBy] without offset
    and limit. *)
Theorem find_page_is_slice
  (r : Repo) (filters : option Filter) (entries : option (list (string * string)))
  (o l : Z) (whole : list Obj) :
  0 ≤ o → 0 < l →
  find filters (Some {| orderBy := entries; offset := None; limit := None |}) r
  = (Ok whole, r) →
  find filters (Some {| orderBy := entries; offset := Some o; limit := Some l |}) r
  = (Ok (take (Z.to_nat l) (drop (Z.to_nat o) whole)), r).
Proof.
  intros Ho Hl. unfold find, read_store.
  change ((gets records ≫= ?k) r) with (k (records r) r). cbv beta zeta.
  unfold mbind, M_bind, mret, M_ret. simpl opt.
  assert (Hpage : ∀ xs : list Obj,
            (if truthy_num (Some l)
             then Js.slice (if truthy_num (Some o) then Js.slice xs (default 0 (Some o)) None
                            else xs) 0 (Some l)
             else if truthy_num (Some o) then Js.slice xs (default 0 (Some o)) None else xs)
            = take (Z.to_nat l) (drop (Z.to_nat o) xs)).
  { intros xs. simpl.
    destruct (Z.eqb_spec l 0) as [|_]; [lia|]. simpl. rewrite slice_to by lia. f_equal.
    destruct (Z.eqb_spec o 0) as [->|_]; simpl; [by rewrite drop_0|by apply slice_from]. }
  unfold opt. cbn [mbind option_bind orderBy offset limit].
  destruct entries as [[|[k d] entries]|]; [done| |].
  - intros [= <-]. by rewrite Hpage.
  - intros [= <-]. by rewrite Hpage.
Qed.

Lemma find_page_is_slice_witness :
  find None (Some {| orderBy := Some [("price", "ASC")]; offset := None; limit := None |})
    Sample.shop
  = (Ok [Sample.gadget; Sample.widget], Sample.shop)
  ∧ find None (Some {| orderBy := Some [("price", "ASC")]; offset := Some 1; limit := Some 1 |})
      Sample.shop
    = (Ok [Sample.widget], Sample.shop).
Proof.
  split; [vm_compute; reflexivity|].
  apply (find_page_is_slice Sample.shop None (Some [("price", "ASC")]) 1 1
           [Sample.gadget; Sample.widget]); [lia|lia|vm_compute; reflexivity].
Defined.

(** X8. A negative offset counts from the end: with the offset [-k] and no
    limit, [find] returns the last [k] records of the whole result, and all
    of them when there are fewer. *)
Theorem find_negative_offset
  (r : Repo) (filters : option Filter) (entries : option (list (string * string)))
  (k : nat) (whole : list Obj) :
  (0 < k)%nat →
  find filters (Some {| orderBy := entries; offset := None; limit := None |}) r
  = (Ok whole, r) →
  find filters (Some {| orderBy := entries; offset := Some (- Z.of_nat k); limit := None |}) r
  = (Ok (drop (length whole - k) whole), r).
Proof.
  intros Hk. unfold find, read_store.
  change ((gets records ≫= ?k) r) with (k (records r) r). cbv beta zeta.
  unfold mbind, M_bind. simpl opt.
  assert (Hslice : ∀ xs : list Obj,
            Js.slice xs (- Z.of_nat k) None = drop (length xs - k) xs).
  { intros xs. unfold Js.slice, Js.rel_index.
    destruct (Z.ltb_spec (- Z.of_nat k) 0) as [_|]; [|lia].
    replace (Z.to_nat (Z.max (Z.of_nat (length xs) + - Z.of_nat k) 0))
      with (length xs - k)%nat by lia.
    apply take_ge. rewrite length_drop. lia. }
  unfold mret, M_ret, opt. cbn [mbind option_bind orderBy offset limit].
  destruct entries as [[|[key' d] entries]|]; [done| |].
  - intros [= <-]. do 2 f_equal. simpl.
    destruct (Z.eqb_spec (- Z.of_nat k) 0) as [|_]; [lia|]. simpl. apply Hslice.
  - intros [= <-]. do 2 f_equal. simpl.
    destruct (Z.eqb_spec (- Z.of_nat k) 0) as [|_]; [lia|]. simpl. apply Hslice.
Qed.

Lemma find_negative_offset_witness :
  find None (Some {| orderBy := None; offset := Some (-1); limit := None |}) Sample.shop
  = (Ok [Sample.gadget], Sample.shop).
Proof.
  apply (find_negative_offset Sample.shop None None 1 [Sample.widget; Sample.gadget]);
    [lia|vm_compute; reflexivity].
Defined.

End Ordering.

Section OrderingWitness.

Import InMemory.


End OrderingWitness.

(** ** The in-memory store: an [orderBy] with several entries *)

Section FirstEntry.

Import InMemory.
















End FirstEntry.

(** ** The in-memory store: creating and updating *)

Section Writing.

Import InMemory.

(** X9. [create] appends one record and touches no other. The record has
    the fields of the partial and an identifier that is neither [null] nor
    [undefined]: the partial's own when it has one, and the next generated
    one otherwise. An identifier is generated only when it is needed. *)
Theorem create_appends (r : Repo) (data : Obj) :
  wf r →
  ∃ e r',
    create data r = (Ok e, r')
    ∧ records r' = records r ++ [e]
    ∧ is_nullish (get e "id") = false
    ∧ (∀ k, k ≠ "id" → e !! k = data !! k)
    ∧ (is_nullish (get data "id") = false →
       get e "id" = get data "id" ∧ drawn r' = drawn r)
    ∧ (is_nullish (get data "id") = true →
       get e "id" = VStr (uuids r (drawn r)) ∧ drawn r' = S (drawn r))
    ∧ transactionStack r' = transactionStack r.
Proof.
  intros (Hlt & _ & _). pose proof (records_create data r Hlt) as Hrec.
  rewrite create_eq in Hrec |- *. cbv zeta in *. unfold snd in Hrec.
  eexists _, _. split; [reflexivity|]. split; [exact Hrec|].
  assert (Hid : get (<["id" := assigned_id r data]> data) "id" = assigned_id r data).
  { unfold get. by rewrite lookup_insert_eq. }
  rewrite Hid. unfold assigned_id.
  destruct (is_nullish (get data "id")) eqn:Hnull; repeat split; try done.
  - intros k Hk. by rewrite lookup_insert_ne.
  - intros k Hk. by rewrite lookup_insert_ne.
Qed.

Lemma create_appends_witness :
  wf Sample.shop
  ∧ ∃ e r',
      create Sample.reworded Sample.shop = (Ok e, r')
      ∧ records r' = [Sample.widget; Sample.gadget; e]
      ∧ get e "id" = VStr "uuid-"
      ∧ get e "review" = VStr "Better".
Proof.
  split; [compute_done|].
  destruct (create_appends Sample.shop Sample.reworded) as
    (e & r' & Hcreate & Hrec & _ & Hfields & _ & Hgen & _); [compute_done|].
  exists e, r'. split; [done|]. split; [done|]. split.
  - by apply Hgen.
  - unfold get. by rewrite Hfields.
Defined.

Lemma createMany_cons (data : Obj) (rest : list Obj) (r : Repo) :
  createMany (data :: rest) r =
  match createMany rest (create data r).2 with
  | (Ok es, r2) => (Ok (<["id" := assigned_id r data]> data :: es), r2)
  | (Throw e, r2) => (Throw e, r2)
  end.
Proof. unfold createMany. rewrite for_each_cons, create_eq. reflexivity. Qed.

(** X10. [createMany] appends one record for each partial, in the order of
    the partials, and returns these records; it generates as many
    identifiers as there are partials without one. *)
Theorem createMany_appends (r : Repo) (dataArr : list Obj) :
  wf r →
  ∃ created r',
    createMany dataArr r = (Ok created, r')
    ∧ records r' = records r ++ created
    ∧ Forall2 (λ data e, is_nullish (get e "id") = false
                         ∧ ∀ k, k ≠ "id" → e !! k = data !! k) dataArr created
    ∧ drawn r' = (drawn r
                  + length (filter (λ data, is_nullish (get data "id") = true) dataArr))%nat
    ∧ transactionStack r' = transactionStack r.
Proof.
  revert r. induction dataArr as [|data rest IH]; intros r Hwf.
  - exists [], r. rewrite app_nil_r. simpl. repeat split; [constructor|lia].
  - destruct (create_appends r data Hwf) as
      (e & r1 & Hcreate & Hrec & Hid & Hfields & Hown & Hgen & Hstack).
    assert (Hwf1 : wf r1).
    { replace r1 with (create data r).2 by by rewrite Hcreate.
      eapply extends_wf; [exact Hwf|]. apply create_extends. by destruct Hwf. }
    destruct (IH r1 Hwf1) as (es & r2 & Hmany & Hrec2 & Hall & Hdrawn & Hstack2).
    rewrite createMany_cons. pose proof Hcreate as Hc. rewrite create_eq in Hc.
    cbv zeta in Hc. injection Hc as He Hr1. rewrite Hcreate. unfold snd.
    rewrite Hmany. exists (e :: es), r2. rewrite He.
    split; [done|]. split; [by rewrite Hrec2, Hrec, <- app_assoc|].
    split; [by constructor|]. split; [|congruence].
    rewrite Hdrawn. rewrite filter_cons.
    destruct (is_nullish (get data "id")) eqn:Hnull.
    + destruct (Hgen eq_refl) as [_ ->]. rewrite decide_True by done. simpl. lia.
    + destruct (Hown eq_refl) as [_ ->]. rewrite decide_False by done. lia.
Qed.

Lemma createMany_appends_witness :
  wf (new Sample.uuid)
  ∧ ∃ created r',
      createMany [Sample.reworded; Sample.widget; Sample.reworded] (new Sample.uuid)
      = (Ok created, r')
      ∧ records r' = created
      ∧ drawn r' = 2%nat.
Proof.
  split; [compute_done|].
  destruct (createMany_appends (new Sample.uuid)
              [Sample.reworded; Sample.widget; Sample.reworded]) as
    (created & r' & Hmany & Hrec & _ & Hdrawn & _); [compute_done|].
  exists created, r'. split; [done|]. split; [done|]. rewrite Hdrawn. reflexivity.
Defined.

Lemma findIndex_some_elem {A} (p : A → bool) (l : list A) (i : nat) :
  Js.findIndex p l = Some i → ∃ x, l !! i = Some x ∧ p x = true.
Proof.
  revert i. induction l as [|x l IH]; intros i; simpl; [discriminate|].
  destruct (p x) eqn:Hp.
  - intros [= <-]. by exists x.
  - destruct (Js.findIndex p l) as [j|]; simpl; [|discriminate].
    intros [= <-]. by apply IH.
Qed.

Lemma findIndex_none_elem {A} (p : A → bool) (l : list A) :
  Js.findIndex p l = None → ∀ x, x ∈ l → p x = false.
Proof.
  induction l as [|x l IH]; simpl; [by intros _ y Hy; apply elem_of_nil in Hy|].
  destruct (p x) eqn:Hp; [discriminate|].
  destruct (Js.findIndex p l); simpl; [discriminate|].
  intros _ y Hy. apply elem_of_cons in Hy as [->|Hy]; [done|by apply IH].
Qed.

(** One [update] whose partial has no [id]: it finds a record exactly when
    the identifier is stored, and it leaves every identifier where it is. *)
Lemma update_keeps_ids (id : string) (data : Obj) (r : Repo) :
  wf r → data !! "id" = None →
  ∃ o r',
    update id data r = (Ok o, r')
    ∧ (is_Some o ↔ VStr id ∈ ids_of (records r))
    ∧ ids_of (records r') = ids_of (records r)
    ∧ wf r'.
Proof.
  intros Hwf Hnoid. pose proof Hwf as (Hlt & _ & _).
  assert (Hwf' : wf (update id data r).2).
  { destruct (update_extends id data r Hlt) as (o & _ & Hext). by eapply extends_wf. }
  rewrite update_eq in Hwf' |- *.
  destruct (Js.findIndex _ (records r)) as [i|] eqn:Hi; cbv zeta in *.
  - destruct (findIndex_some_elem _ _ _ Hi) as (old & Hold & Hid).
    apply strict_eq_true in Hid.
    eexists _, _. split; [reflexivity|]. unfold snd in Hwf'.
    rewrite records_with_heap_insert by done.
    rewrite list_lookup_insert_eq by by eapply lookup_lt_Some.
    split; [|split; [|done]].
    + split; [|by eauto]. intros _. rewrite <- Hid.
      apply (list_elem_of_fmap_2 (λ x, get x "id")). by eapply list_elem_of_lookup_2.
    + rewrite Hold. simpl default. unfold ids_of.
      rewrite (list_fmap_insert (λ x, get x "id")). apply list_insert_id.
      rewrite list_lookup_fmap, Hold. simpl. f_equal.
      rewrite spread2_get. by rewrite Hnoid.
  - exists None, r. split; [done|]. split; [|done].
    split; [by intros [? ?]|]. intros Hin. exfalso.
    apply list_elem_of_fmap in Hin as (x & Hx & Hin).
    pose proof (findIndex_none_elem _ _ Hi x Hin) as Hfalse.
    apply strict_eq_false in Hfalse. by apply Hfalse.
Qed.

Lemma updateMany_cons (u : string * Obj) (rest : list (string * Obj)) (r : Repo) :
  updateMany (u :: rest) r =
  match update u.1 u.2 r with
  | (Ok o, r1) =>
      match updateMany rest r1 with
      | (Ok os, r2) => (Ok (o :: os), r2)
      | (Throw e, r2) => (Throw e, r2)
      end
  | (Throw e, r1) => (Throw e, r1)
  end.
Proof. unfold updateMany. by rewrite for_each_cons. Qed.

(** X11. [updateMany], with partials that have no [id], answers each entry
    on its own: a record where the identifier is stored and [null] where it
    is not, one answer for each entry and in their order. An entry that
    finds nothing stops none of the others, and the store holds the same
    identifiers in the same places afterwards. *)
Theorem updateMany_answers_each (r : Repo) (updates : list (string * Obj)) :
  wf r → (∀ u, u ∈ updates → u.2 !! "id" = None) →
  ∃ answers r',
    updateMany updates r = (Ok answers, r')
    ∧ Forall2 (λ u o, is_Some o ↔ VStr u.1 ∈ ids_of (records r)) updates answers
    ∧ ids_of (records r') = ids_of (records r).
Proof.
  revert r. induction updates as [|u rest IH]; intros r Hwf Hnoid.
  - exists [], r. repeat split. constructor.
  - destruct (update_keeps_ids u.1 u.2 r Hwf) as (o & r1 & Hup & Hfound & Hids & Hwf1).
    { apply Hnoid. by left. }
    destruct (IH r1 Hwf1) as (os & r2 & Hmany & Hall & Hids2).
    { intros v Hv. apply Hnoid. by right. }
    rewrite updateMany_cons, Hup, Hmany. exists (o :: os), r2.
    split; [done|]. split; [|congruence].
    constructor; [done|]. eapply Forall2_impl; [exact Hall|].
    intros v o'. simpl. by rewrite Hids.
Qed.

Lemma updateMany_answers_each_witness :
  wf Sample.shop
  ∧ ∃ answers r',
      updateMany [("p3", Sample.reworded); ("p2", Sample.reworded)] Sample.shop
      = (Ok answers, r')
      ∧ Forall2 (λ u o, is_Some o ↔ VStr u.1 ∈ ids_of (records Sample.shop))
          [("p3", Sample.reworded); ("p2", Sample.reworded)] answers
      ∧ ids_of (records r') = [VStr "p1"; VStr "p2"].
Proof.
  split; [compute_done|].
  destruct (updateMany_answers_each Sample.shop
              [("p3", Sample.reworded); ("p2", Sample.reworded)]) as
    (answers & r' & Hmany & Hall & Hids).
  - compute_done.
  - intros u Hu. apply elem_of_cons in Hu as [->|Hu]; [reflexivity|].
    apply list_elem_of_singleton in Hu as ->. reflexivity.
  - exists answers, r'. split; [done|]. split; [done|]. rewrite Hids. reflexivity.
Defined.

End Writing.

(** ** The in-memory store: distinct identifiers along the operations *)

Section KeptApart.

Import InMemory.

(** What [randomUUID] hands out, call after call: never the same string
    twice. *)
Variable u : nat → string.
Hypothesis u_new : Inj (=) (=) u.

Lemma insert_NoDup {A} (l : list A) (i : nat) (x : A) :
  NoDup l → x ∉ l → NoDup (<[i := x]> l).
Proof.
  intros Hnd Hx. destruct (l !! i) as [y|] eqn:Hy.
  - rewrite insert_take_drop by by eapply lookup_lt_Some.
    rewrite <- (take_drop_middle l i y Hy) in Hnd, Hx.
    apply NoDup_app in Hnd as (Hpre & Hsep & Hpost).
    apply NoDup_cons in Hpost as [_ Hpost].
    apply NoDup_app. split; [done|]. split.
    + intros z Hz Hin. apply elem_of_cons in Hin as [->|Hin].
      * apply Hx. apply elem_of_app. by left.
      * apply (Hsep z Hz). by right.
    + constructor; [|done]. intros Hin. apply Hx. apply elem_of_app. right. by right.
  - rewrite list_insert_ge; [done|]. by apply lookup_ge_None.
Qed.

Lemma elem_of_insert_inv {A} (l : list A) (i : nat) (x y : A) :
  y ∈ <[i := x]> l → y = x ∨ y ∈ l.
Proof.
  intros Hin. apply list_elem_of_lookup in Hin as [j Hj].
  apply list_lookup_insert_Some in Hj as [(-> & -> & _)|[_ Hj]]; [by left|].
  right. by eapply list_elem_of_lookup_2.
Qed.

(** A record operation keeps what holds of the generated identifiers when
    the live array it leaves holds none that is yet to come. *)
Lemma extends_generated (r r' : Repo) :
  wf r → extends r r' → uuids r' = uuids r → (drawn r ≤ drawn r')%nat →
  generated_before r →
  (∀ n, VStr (uuids r n) ∈ ids_of (records r') → (n < drawn r')%nat) →
  generated_before r'.
Proof.
  intros (Hlt & Hall & _) (_ & _ & Hst & Hkeep) Hu Hdr Hg Hlive a n Ha Hin.
  rewrite Hu in Hin. destruct Ha as [->|Ha]; [by apply Hlive|].
  rewrite Hst in Ha. rewrite Forall_forall in Hall. destruct (Hall a Ha) as [Hlta Hne].
  destruct (Hkeep a Hlta Hne) as [_ Heq]. unfold array_at in Hin. rewrite Heq in Hin.
  pose proof (Hg a n (or_intror Ha) Hin). lia.
Qed.

(** Within these states the next generated identifier is not stored. *)
Lemma next_uuid_free (r : Repo) :
  generated_before r → VStr (uuids r (drawn r)) ∉ ids_of (records r).
Proof.
  intros Hg Hin. pose proof (Hg (store r) (drawn r) (or_introl eq_refl) Hin). lia.
Qed.

Lemma create_kept (data : Obj) (r : Repo) :
  kept_apart u r → create_apart data r → kept_apart u (create data r).2.
Proof.
  intros (Hwf & Hd & Hu & Hg) Hap. pose proof Hwf as (Hlt & _ & _).
  assert (Hfresh : assigned_id r data ∉ ids_of (records r)).
  { unfold assigned_id. destruct (is_nullish (get data "id")) eqn:Hnull.
    - by apply next_uuid_free.
    - destruct Hap as [?|[? _]]; [congruence|done]. }
  destruct (create_distinct data r Hwf Hd Hfresh) as [Hwf' Hd'].
  assert (Hgen : uuids (create data r).2 = uuids r
                 ∧ drawn (create data r).2
                   = if is_nullish (get data "id") then S (drawn r) else drawn r).
  { rewrite create_eq. cbv zeta. unfold snd. by destruct (is_nullish (get data "id")). }
  destruct Hgen as [Hu' Hdr].
  split; [done|]. split; [done|]. split; [congruence|].
  apply (extends_generated r); [done|by apply create_extends|done| |done|].
  { rewrite Hdr. destruct (is_nullish (get data "id")); lia. }
  intros n Hin. rewrite records_create in Hin by done.
  unfold ids_of in Hin. rewrite fmap_app in Hin. apply elem_of_app in Hin as [Hin|Hin].
  - pose proof (Hg (store r) n (or_introl eq_refl) Hin). rewrite Hdr.
    destruct (is_nullish (get data "id")); lia.
  - simpl in Hin. apply list_elem_of_singleton in Hin.
    unfold get in Hin at 1. rewrite lookup_insert_eq in Hin. simpl in Hin.
    unfold assigned_id in Hin. rewrite Hdr.
    destruct (is_nullish (get data "id")) eqn:Hnull.
    + injection Hin as Hin. rewrite Hu in Hin. apply u_new in Hin. lia.
    + destruct Hap as [?|[_ Hlater]]; [congruence|].
      destruct (le_lt_dec (drawn r) n) as [Hle|?]; [|done].
      exfalso. by apply (Hlater n Hle).
Qed.

Lemma createMany_kept (dataArr : list Obj) (r : Repo) :
  kept_apart u r → creates_apart dataArr r → kept_apart u (createMany dataArr r).2.
Proof.
  revert r. induction dataArr as [|data rest IH]; intros r Hk Hap; [done|].
  destruct Hap as [Hap Hrest]. rewrite createMany_step.
  apply IH; [by apply create_kept|done].
Qed.

Lemma update_kept (id : string) (data : Obj) (r : Repo) :
  kept_apart u r → update_apart id data r → kept_apart u (update id data r).2.
Proof.
  intros (Hwf & Hd & Hu & Hg) Hap. pose proof Hwf as (Hlt & _ & _).
  destruct (update_extends id data r Hlt) as (o & _ & Hext).
  rewrite update_eq in Hext |- *.
  destruct (Js.findIndex _ (records r)) as [i|] eqn:Hi; cbv zeta in *; unfold snd in *;
    [|done].
  destruct (findIndex_some_elem _ _ _ Hi) as (old & Hold & Hid).
  apply strict_eq_true in Hid.
  set (merged := spread2 (default ∅ (records r !! i)) data) in *.
  set (r' := with_heap _ r) in *.
  assert (Hrec : records r' = <[i := merged]> (records r))
    by by apply records_with_heap_insert.
  assert (Hids : ids_of (records r') = <[i := get merged "id"]> (ids_of (records r))).
  { rewrite Hrec. unfold ids_of. by rewrite (list_fmap_insert (λ x, get x "id")). }
  assert (Hat : ids_of (records r) !! i = Some (VStr id)).
  { unfold ids_of. rewrite list_lookup_fmap, Hold. simpl. by rewrite Hid. }
  assert (Hnew : get merged "id" = VStr id ∨ free_id r (get merged "id")).
  { subst merged. rewrite Hold. simpl default. rewrite spread2_get.
    destruct Hap as [Hnot|Hap].
    - exfalso. apply Hnot. by eapply list_elem_of_lookup_2.
    - destruct (data !! "id") as [v|]; [done|]. by left. }
  destruct Hnew as [Hown|[Hfree Hlater]].
  - rewrite Hown, list_insert_id in Hids by done.
    split; [by eapply extends_wf|]. split; [|split; [done|]].
    + split; [rewrite Hids; by destruct Hd|].
      eapply extends_snapshots; [exact Hwf|exact Hext|by destruct Hd].
    + apply (extends_generated r); [done|done|done|done|done|].
      intros n Hin. rewrite Hids in Hin. by apply (Hg (store r) n (or_introl eq_refl)).
  - split; [by eapply extends_wf|]. split; [|split; [done|]].
    + split; [rewrite Hids; apply insert_NoDup; [by destruct Hd|done]|].
      eapply extends_snapshots; [exact Hwf|exact Hext|by destruct Hd].
    + apply (extends_generated r); [done|done|done|done|done|].
      intros n Hin. rewrite Hids in Hin. apply elem_of_insert_inv in Hin as [Hin|Hin].
      * change (drawn r') with (drawn r).
        destruct (le_lt_dec (drawn r) n) as [Hle|?]; [|done].
        exfalso. by apply (Hlater n Hle).
      * by apply (Hg (store r) n (or_introl eq_refl)).
Qed.

Lemma updateMany_kept (updates : list (string * Obj)) (r : Repo) :
  kept_apart u r → updates_apart updates r → kept_apart u (updateMany updates r).2.
Proof.
  revert r. induction updates as [|v rest IH]; intros r Hk Hap; [done|].
  destruct Hap as [Hap Hrest]. rewrite updateMany_step.
  apply IH; [by apply update_kept|done].
Qed.

(** [delete] and [deleteMany] put a filtered copy in the place of the live
    array. *)
Lemma replace_kept (r : Repo) (P : Obj → Prop) `{∀ x, Decision (P x)} :
  kept_apart u r →
  kept_apart u (with_store (length (heap r))
                  (with_heap (heap r ++ [filter P (records r)]) r)).
Proof.
  intros (Hwf & Hd & Hu & Hg).
  destruct (replace_distinct r P Hwf Hd) as [Hwf' Hd'].
  split; [done|]. split; [done|]. split; [done|].
  apply (extends_generated r); [done|apply extends_replace|done|done|done|].
  intros n Hin. rewrite records_alloc_store in Hin.
  apply (Hg (store r) n (or_introl eq_refl)).
  apply list_elem_of_fmap in Hin as (x & Hx & Hin).
  apply list_elem_of_filter in Hin as [_ Hin]. rewrite Hx.
  by apply (list_elem_of_fmap_2 (λ x, get x "id")).
Qed.

Lemma beginTransaction_kept (r : Repo) :
  kept_apart u r → kept_apart u (beginTransaction r).2.
Proof.
  intros (Hwf & Hd & Hu & Hg).
  destruct (beginTransaction_distinct r Hwf Hd) as [Hwf' Hd'].
  split; [done|]. split; [done|].
  destruct Hwf as (Hlt & Hall & _). rewrite Forall_forall in Hall.
  rewrite beginTransaction_eq. unfold snd. split; [done|].
  intros a n Ha Hin. unfold array_at in Hin. simpl in Ha, Hin.
  assert (Hcases : a = length (heap r) ∨ (a < length (heap r))%nat
                                          ∧ (a = store r ∨ a ∈ transactionStack r)).
  { destruct Ha as [->|Ha]; [right; by split; [|left]|].
    apply elem_of_cons in Ha as [->|Ha]; [by left|].
    right. destruct (Hall a Ha). split; [done|by right]. }
  destruct Hcases as [->|[Hlta Ha']].
  - rewrite list_lookup_middle in Hin by done.
    by apply (Hg (store r) n (or_introl eq_refl)).
  - rewrite lookup_app_l in Hin by done. by apply (Hg a n Ha').
Qed.

Lemma commitTransaction_kept (r : Repo) :
  kept_apart u r → kept_apart u (commitTransaction r).2.
Proof.
  intros (Hwf & Hd & Hu & Hg).
  destruct (commitTransaction_distinct r Hwf Hd) as [Hwf' Hd'].
  split; [done|]. split; [done|]. split; [done|].
  intros a n Ha Hin. apply (Hg a n); [|done]. simpl in Ha.
  destruct Ha as [->|Ha]; [by left|]. right.
  destruct (transactionStack r); [done|]. by right.
Qed.

Lemma rollbackTransaction_kept (r : Repo) :
  kept_apart u r → kept_apart u (rollbackTransaction r).2.
Proof.
  intros (Hwf & Hd & Hu & Hg).
  destruct (rollbackTransaction_distinct r Hwf Hd) as [Hwf' Hd'].
  split; [done|]. split; [done|].
  rewrite rollbackTransaction_eq in *.
  destruct (transactionStack r) as [|top st] eqn:Hst; [done|]. unfold snd.
  split; [done|]. intros a n Ha Hin. apply (Hg a n); [|done]. simpl in Ha.
  right. rewrite Hst. destruct Ha as [->|Ha]; [by left|by right].
Qed.

Lemma new_kept : kept_apart u (new u).
Proof.
  destruct (new_distinct u) as [Hwf Hd]. split; [done|]. split; [done|]. split; [done|].
  intros a n [->|Ha] Hin; [|by apply elem_of_nil in Ha]. by apply elem_of_nil in Hin.
Qed.

Lemma exec_kept (op : Op) (r : Repo) :
  kept_apart u r → keeps_ids_apart op r → kept_apart u (exec op r).2.
Proof.
  intros Hk Hop. destruct op; cbn [exec keeps_ids_apart] in *.
  - pose proof (create_kept data r Hk Hop) as H.
    unfold mbind, M_bind. by destruct (create data r) as [[?|?] ?].
  - pose proof (createMany_kept dataArr r Hk Hop) as H.
    unfold mbind, M_bind. by destruct (createMany dataArr r) as [[?|?] ?].
  - pose proof (update_kept id data r Hk Hop) as H.
    unfold mbind, M_bind. by destruct (update id data r) as [[?|?] ?].
  - pose proof (updateMany_kept updates r Hk Hop) as H.
    unfold mbind, M_bind. by destruct (updateMany updates r) as [[?|?] ?].
  - rewrite delete_eq. by apply replace_kept.
  - rewrite deleteMany_eq. by apply replace_kept.
  - by apply beginTransaction_kept.
  - by apply commitTransaction_kept.
  - by apply rollbackTransaction_kept.
Qed.

(** The two conditions on the stored identifiers are needed: a create that
    brings an identifier a stored record holds leaves it twice, and so
    does an update that gives a record the identifier another one holds. *)
Lemma create_held_repeats (data : Obj) (r : Repo) :
  wf r → is_nullish (get data "id") = false → get data "id" ∈ ids_of (records r) →
  ¬ NoDup (ids_of (records (create data r).2)).
Proof.
  intros (Hlt & _) Hnull Hin Hnd. rewrite records_create in Hnd by done.
  unfold ids_of in Hnd. rewrite fmap_app in Hnd.
  apply NoDup_app in Hnd as (_ & Hsep & _). apply (Hsep _ Hin). simpl.
  replace (get (<["id" := assigned_id r data]> data) "id") with (assigned_id r data)
    by (unfold get; by rewrite lookup_insert_eq).
  unfold assigned_id. rewrite Hnull. by left.
Qed.

Lemma update_held_repeats (id : string) (data : Obj) (r : Repo) (v : Value) :
  wf r → VStr id ∈ ids_of (records r) →
  data !! "id" = Some v → v ≠ VStr id → v ∈ ids_of (records r) →
  ¬ NoDup (ids_of (records (update id data r).2)).
Proof.
  intros (Hlt & _) Hid Hdata Hne Hin Hnd. rewrite update_eq in Hnd.
  destruct (Js.findIndex _ (records r)) as [i|] eqn:Hi; cbv zeta in Hnd; unfold snd in Hnd.
  - destruct (findIndex_some_elem _ _ _ Hi) as (old & Hold & Hown).
    apply strict_eq_true in Hown.
    rewrite records_with_heap_insert in Hnd by done.
    unfold ids_of in Hnd. rewrite (list_fmap_insert (λ x, get x "id")) in Hnd.
    rewrite spread2_get, Hdata in Hnd.
    apply list_elem_of_lookup in Hin as [j Hj].
    assert (Hij : i ≠ j).
    { intros ->. unfold ids_of in Hj. rewrite list_lookup_fmap, Hold in Hj.
      simpl in Hj. congruence. }
    apply Hij. eapply NoDup_lookup; [exact Hnd| |].
    + apply list_lookup_insert_eq. rewrite length_fmap. by eapply lookup_lt_Some.
    + by rewrite list_lookup_insert_ne.
  - apply list_elem_of_fmap in Hid as (x & Hx & Hmem).
    pose proof (findIndex_none_elem _ _ Hi x Hmem) as Hfalse.
    apply strict_eq_false in Hfalse. by apply Hfalse.
Qed.

(** C5, as the store has it. The store never compares an identifier with
    the stored ones, so distinct identifiers are the callers' doing. With
    [randomUUID] handing out a new string at each call, identifiers stay
    pairwise distinct along the operations that keep them apart: a create
    whose partial brings no identifier or a free one, an update that finds
    no record, has no [id] in its partial, has the [id] of the record it
    changes, or a free one, and any delete and any transaction call, a
    rollback to a snapshot among them. *)
Theorem distinct_ids_when_kept_apart (r : Repo) :
  reachable_apart u r → NoDup (ids_of (records r)).
Proof.
  intros Hreach. cut (kept_apart u r). { by intros (_ & [H _] & _). }
  induction Hreach as [|r op _ Hk Hop].
  - apply new_kept.
  - by apply exec_kept.
Qed.

End KeptApart.

Section KeptApartSamples.

Import InMemory.

Lemma tally_inj : Inj (=) (=) Sample.tally.
Proof.
  intros m. induction m as [|m IH]; intros [|n] H; try done.
  injection H as H. f_equal. by apply IH.
Qed.

Lemma uuid_inj : Inj (=) (=) Sample.uuid.
Proof. intros m n H. unfold Sample.uuid in H. simpl in H. apply tally_inj. by injection H. Qed.

(** An identifier of two letters is not a generated one. *)
Lemma two_letters_free (r : Repo) (a b : ascii) :
  uuids r = Sample.uuid →
  VStr (String a (String b "")) ∉ ids_of (records r) →
  free_id r (VStr (String a (String b ""))).
Proof.
  intros Hu Hnot. split; [done|]. intros n _ H. rewrite Hu in H.
  unfold Sample.uuid in H. simpl in H. discriminate H.
Qed.

(** C5 fails when an identifier is supplied twice: two creates of the
    widget leave two records with the identifier ["p1"]. It fails too when
    an update hands the identifier of one record to another: in the shop,
    updating the gadget ["p2"] with the partial [{id: "p1"}] leaves two
    records with the identifier ["p1"]. *)
Lemma distinct_ids_counterexample :
  let twice :=
    (exec (Create Sample.widget) (exec (Create Sample.widget) (new Sample.uuid)).2).2 in
  let renamed :=
    (exec (Update "p2" (<["id" := VStr "p1"]> ∅))
       (exec (CreateMany [Sample.widget; Sample.gadget]) (new Sample.uuid)).2).2 in
  (reachable Sample.uuid twice
   ∧ ids_of (records twice) = [VStr "p1"; VStr "p1"]
   ∧ ¬ NoDup (ids_of (records twice)))
  ∧ (reachable Sample.uuid renamed
     ∧ ids_of (records renamed) = [VStr "p1"; VStr "p1"]
     ∧ ¬ NoDup (ids_of (records renamed))).
Proof.
  assert (Hdup : ¬ NoDup [VStr "p1"; VStr "p1"]).
  { intros Hnd. apply NoDup_cons_1_1 in Hnd. apply Hnd. by left. }
  split.
  - split; [do 2 apply reachable_step; apply reachable_new|].
    split; [vm_compute; reflexivity|].
    replace (ids_of _) with [VStr "p1"; VStr "p1"] by (vm_compute; reflexivity). done.
  - split; [do 2 apply reachable_step; apply reachable_new|].
    split; [vm_compute; reflexivity|].
    replace (ids_of _) with [VStr "p1"; VStr "p1"] by (vm_compute; reflexivity). done.
Qed.

(** The generator is part of it: a caller who brings the string that
    [randomUUID] hands out next gets it a second time. *)
Example supplied_then_generated :
  let r := (exec (Create (<["name" := VStr "Gizmo"]> ∅))
              (exec (Create (<["id" := VStr "uuid-"]> ∅)) (new Sample.uuid)).2).2 in
  ids_of (records r) = [VStr "uuid-"; VStr "uuid-"].
Proof. vm_compute. reflexivity. Qed.

Lemma distinct_ids_when_kept_apart_witness :
  let r1 := (exec (CreateMany [Sample.widget; Sample.gadget]) (new Sample.uuid)).2 in
  let r2 := (exec (Create (<["name" := VStr "Gizmo"]> ∅)) r1).2 in
  let r3 := (exec (Update "p1" (<["id" := VStr "p1"]> (<["price" := VNum 5]> ∅))) r2).2 in
  let r4 := (exec (Update "p2" (<["id" := VStr "p7"]> ∅)) r3).2 in
  Inj (=) (=) Sample.uuid
  ∧ reachable_apart Sample.uuid r4
  ∧ ids_of (records r4) = [VStr "p1"; VStr "p7"; VStr "uuid-"]
  ∧ NoDup (ids_of (records r4)).
Proof.
  intros r1 r2 r3 r4.
  assert (Hreach : reachable_apart Sample.uuid r4).
  { subst r4 r3 r2 r1. repeat apply reachable_apart_step; [apply reachable_apart_new|..].
    - cbn [keeps_ids_apart creates_apart]. split; [|split; [|done]].
      + right. apply two_letters_free; [vm_compute; reflexivity|compute_done].
      + right. apply two_letters_free; [vm_compute; reflexivity|compute_done].
    - cbn [keeps_ids_apart]. left. vm_compute. reflexivity.
    - cbn [keeps_ids_apart]. right.
      replace (_ !! "id") with (Some (VStr "p1")) by (vm_compute; reflexivity). by left.
    - cbn [keeps_ids_apart]. right.
      replace (_ !! "id") with (Some (VStr "p7")) by (vm_compute; reflexivity).
      right. apply two_letters_free; [vm_compute; reflexivity|compute_done]. }
  split; [exact uuid_inj|]. split; [exact Hreach|].
  split; [vm_compute; reflexivity|].
  exact (distinct_ids_when_kept_apart Sample.uuid uuid_inj r4 Hreach).
Defined.

End KeptApartSamples.

(** ** The in-memory store: nested and committed transactions *)

Section Nested.

Import InMemory Nesting.

Lemma under_allocated a S below k r :
  under a S below k r → (a < length (heap r))%nat ∧ a ≠ store r.
Proof.
  intros ((_ & Hall & _) & _ & inner & _ & Hstack).
  rewrite Forall_forall in Hall. apply Hall. rewrite Hstack.
  apply elem_of_app. right. by left.
Qed.

Lemma under_record_op a S below k r (op : Op) :
  is_record_op op = true → under a S below k r →
  (exec op r).1 = Ok () ∧ under a S below k (exec op r).2.
Proof.
  intros Hop Hunder. destruct (under_allocated _ _ _ _ _ Hunder) as [Ha Hne].
  destruct Hunder as (Hwf & Hheap & inner & Hlen & Hstack).
  destruct (exec_extends op r Hop) as [Hok Hext]; [by destruct Hwf|].
  split; [done|]. split; [by eapply extends_wf|].
  destruct Hext as (_ & _ & Hst & Hkeep). destruct (Hkeep a Ha Hne) as [_ Heq].
  split; [congruence|]. exists inner. split; [done|congruence].
Qed.

Lemma under_begin a S below k r :
  under a S below k r →
  (beginTransaction r).1 = Ok () ∧ under a S below (Datatypes.S k) (beginTransaction r).2.
Proof.
  intros Hunder. destruct (under_allocated _ _ _ _ _ Hunder) as [Ha Hne].
  destruct Hunder as (Hwf & Hheap & inner & Hlen & Hstack).
  split; [done|]. split; [by apply (transaction_wf BeginTransaction)|].
  rewrite beginTransaction_eq. unfold snd. simpl. split.
  - by rewrite lookup_app_l.
  - exists (length (heap r) :: inner). split; [simpl; congruence|by rewrite Hstack].
Qed.

Lemma under_commit a S below k r :
  under a S below (Datatypes.S k) r →
  (commitTransaction r).1 = Ok () ∧ under a S below k (commitTransaction r).2.
Proof.
  intros (Hwf & Hheap & inner & Hlen & Hstack).
  split; [done|]. split; [by apply (transaction_wf CommitTransaction)|].
  unfold commitTransaction, modify. simpl. split; [done|].
  destruct inner as [|b inner]; [discriminate|]. exists inner.
  split; [simpl in Hlen; congruence|by rewrite Hstack].
Qed.

Lemma under_rollback a S below k r :
  under a S below (Datatypes.S k) r →
  (rollbackTransaction r).1 = Ok () ∧ under a S below k (rollbackTransaction r).2.
Proof.
  intros (Hwf & Hheap & inner & Hlen & Hstack).
  pose proof (transaction_wf RollbackTransaction r eq_refl Hwf) as Hwf'.
  cbn [exec] in Hwf'. rewrite rollbackTransaction_eq in Hwf' |- *.
  destruct inner as [|b inner]; [discriminate|]. rewrite Hstack in Hwf' |- *.
  simpl in Hwf' |- *. split; [done|]. split; [done|]. split; [done|].
  exists inner. split; [simpl in Hlen; congruence|done].
Qed.

Lemma under_balanced a S below (ops : list Op) :
  ∀ k r, balanced k ops = true → under a S below k r →
         (exec_all ops r).1 = Ok () ∧ under a S below 0 (exec_all ops r).2.
Proof.
  induction ops as [|op ops IH]; intros k r Hbal Hunder.
  - simpl in Hbal. apply Nat.eqb_eq in Hbal as ->. split; [reflexivity|exact Hunder].
  - rewrite exec_all_cons.
    assert (Hstep : ∃ k', balanced k' ops = true
                          ∧ (exec op r).1 = Ok () ∧ under a S below k' (exec op r).2).
    { destruct op; cbn [balanced] in *;
        try (exists k; split; [done|]; by apply under_record_op).
      - exists (Datatypes.S k). split; [done|]. by apply under_begin.
      - destruct k as [|k]; [discriminate|]. exists k. split; [done|]. by apply under_commit.
      - destruct k as [|k]; [discriminate|]. exists k. split; [done|]. by apply under_rollback. }
    destruct Hstep as (k' & Hbal' & Hok & Hunder').
    destruct (exec op r) as [o r1]. simpl in Hok, Hunder'. subst o. by apply (IH k').
Qed.

(** X12. Transactions nest. Between [beginTransaction()] and
    [rollbackTransaction()] there may be record operations and further
    transactions, each begun and then committed or rolled back: the
    rollback restores the records the store held at the outer begin, also
    those that an inner transaction changed and committed. *)
Theorem rollback_restores_nested (r : Repo) (ops : list Op) :
  wf r → balanced 0 ops = true →
  ∃ r', (_ ← beginTransaction; _ ← exec_all ops; _ ← rollbackTransaction; findAll) r
        = (Ok (records r), r')
        ∧ records r' = records r
        ∧ transactionStack r' = transactionStack r.
Proof.
  intros Hwf Hbal.
  assert (Hunder : under (length (heap r)) (records r) (transactionStack r) 0
                     (beginTransaction r).2).
  { split; [by apply (transaction_wf BeginTransaction)|].
    rewrite beginTransaction_eq. unfold snd. simpl.
    split; [by rewrite list_lookup_middle|by exists []]. }
  unfold mbind at 1, M_bind at 1.
  destruct (beginTransaction r) as [o r1] eqn:Hbegin.
  rewrite beginTransaction_eq in Hbegin. injection Hbegin as <- Hr1.
  unfold snd in Hunder.
  destruct (under_balanced _ _ _ ops 0 r1 Hbal Hunder) as [Hok Hafter].
  unfold mbind at 1, M_bind at 1.
  destruct (exec_all ops r1) as [o r2]. simpl in Hok, Hafter. subst o.
  destruct Hafter as (Hwf2 & Hheap & inner & Hlen & Hstack).
  destruct inner; [|discriminate]. simpl in Hstack.
  unfold mbind at 1, M_bind at 1. rewrite rollbackTransaction_eq, Hstack.
  set (r3 := with_store _ _).
  assert (Hrec : records r3 = records r).
  { unfold records at 1, array_at. subst r3. simpl. by rewrite Hheap. }
  exists r3. split; [|done].
  unfold findAll, read_store, gets. by rewrite Hrec.
Qed.

Lemma rollback_restores_nested_witness :
  wf Sample.shop
  ∧ ∃ r', (_ ← beginTransaction;
           _ ← exec_all [Delete "p1"; BeginTransaction; Create Sample.reworded;
                         CommitTransaction; BeginTransaction; Delete "p2";
                         RollbackTransaction];
           _ ← rollbackTransaction; findAll) Sample.shop
          = (Ok [Sample.widget; Sample.gadget], r').
Proof.
  split; [compute_done|].
  destruct (rollback_restores_nested Sample.shop
              [Delete "p1"; BeginTransaction; Create Sample.reworded;
               CommitTransaction; BeginTransaction; Delete "p2";
               RollbackTransaction]) as (r' & Hrun & _); [compute_done|reflexivity|].
  by exists r'.
Defined.

Lemma create_sees_alike (data : Obj) : sees_alike (create data).
Proof.
  intros r1 r2 H1 H2 (Hrec & Hu & Hd).
  pose proof (create_extends data r1 H1) as (Hlt1 & _).
  pose proof (create_extends data r2 H2) as (Hlt2 & _).
  assert (Hid : assigned_id r1 data = assigned_id r2 data).
  { unfold assigned_id. by rewrite Hu, Hd. }
  split; [by rewrite !create_eq, Hid|]. split; [|done].
  unfold same_view. rewrite !records_create by done. rewrite Hrec, Hid.
  split; [done|]. rewrite !create_eq. cbv zeta. unfold snd.
  destruct (is_nullish (get data "id")); simpl; by rewrite ?Hu, ?Hd.
Qed.

Lemma update_sees_alike (id : string) (data : Obj) : sees_alike (update id data).
Proof.
  intros r1 r2 H1 H2 (Hrec & Hu & Hd). rewrite !update_eq. rewrite <- Hrec.
  destruct (Js.findIndex _ (records r1)) as [i|]; cbv zeta; unfold fst, snd; [|done].
  unfold same_view. rewrite !records_with_heap_insert by done.
  simpl. by rewrite !length_insert.
Qed.

Lemma replace_sees_alike (P : Obj → Prop) `{∀ x, Decision (P x)} :
  sees_alike (λ r, (Ok (), with_store (length (heap r))
                             (with_heap (heap r ++ [filter P (records r)]) r))).
Proof.
  intros r1 r2 H1 H2 (Hrec & Hu & Hd). unfold fst, snd.
  split; [done|]. split; [|split; simpl; rewrite length_app; simpl; lia].
  split; [by rewrite !records_alloc_store, Hrec|done].
Qed.

Lemma for_each_sees_alike {A B} (f : A → M Repo B) (l : list A) :
  (∀ x, x ∈ l → sees_alike (f x)) → sees_alike (for_each f l).
Proof.
  induction l as [|x l IH]; intros Hf r1 r2 H1 H2 Hview; [done|].
  rewrite !for_each_cons.
  destruct (Hf x ltac:(by left) r1 r2 H1 H2 Hview) as (Hout & Hview' & H1' & H2').
  destruct (f x r1) as [o1 s1], (f x r2) as [o2 s2]. simpl in *. subst o2.
  destruct o1 as [y|e]; [|done].
  destruct (IH (λ z Hz, Hf z (list_elem_of_further _ _ _ Hz)) s1 s2 H1' H2' Hview')
    as (Hout2 & Hview2 & H12 & H22).
  destruct (for_each f l s1) as [o1 t1], (for_each f l s2) as [o2 t2]. simpl in *.
  subst o2. by destruct o1.
Qed.

Lemma forget_answer_sees_alike {A} (m : M Repo A) :
  sees_alike m → sees_alike (_ ← m; mret ()).
Proof.
  intros Hm r1 r2 H1 H2 Hview. destruct (Hm r1 r2 H1 H2 Hview) as (Hout & Hrest).
  unfold mbind, M_bind. destruct (m r1) as [o1 s1], (m r2) as [o2 s2]. simpl in *.
  subst o2. by destruct o1.
Qed.

Lemma exec_sees_alike (op : Op) : is_record_op op = true → sees_alike (exec op).
Proof.
  intros Hop. destruct op; try discriminate; cbn [exec].
  - apply forget_answer_sees_alike, create_sees_alike.
  - apply forget_answer_sees_alike, for_each_sees_alike. intros d _. apply create_sees_alike.
  - apply forget_answer_sees_alike, update_sees_alike.
  - apply forget_answer_sees_alike, for_each_sees_alike. intros u _. apply update_sees_alike.
  - apply replace_sees_alike.
  - apply replace_sees_alike.
Qed.

Lemma exec_all_sees_alike (ops : list Op) :
  forallb is_record_op ops = true → sees_alike (exec_all ops).
Proof.
  intros Hops. apply forget_answer_sees_alike, for_each_sees_alike.
  intros op Hop. apply exec_sees_alike.
  rewrite forallb_forall in Hops. by apply Hops, list_elem_of_In.
Qed.

(** X13. A transaction that is committed changes the records as its
    operations alone would: [beginTransaction()], record operations and
    [commitTransaction()] leave the records, and the identifiers still to
    be generated, that the same operations leave without a transaction,
    and the transaction stack as it was. *)
Theorem commit_keeps_the_changes (r : Repo) (ops : list Op) :
  wf r → forallb is_record_op ops = true →
  ∃ plain committed,
    exec_all ops r = (Ok (), plain)
    ∧ (_ ← beginTransaction; _ ← exec_all ops; commitTransaction) r = (Ok (), committed)
    ∧ same_view committed plain
    ∧ transactionStack committed = transactionStack r.
Proof.
  intros (Hlt & _ & _) Hops.
  destruct (exec_all_extends ops r Hops Hlt) as [Hplain _].
  unfold mbind at 1, M_bind at 1. rewrite beginTransaction_eq.
  set (r1 := with_stack _ _).
  assert (Hlt1 : (store r1 < length (heap r1))%nat).
  { subst r1. simpl. rewrite length_app. simpl. lia. }
  assert (Hview : same_view r1 r).
  { subst r1. split; [|done]. unfold records, array_at. simpl. by rewrite lookup_app_l. }
  destruct (exec_all_sees_alike ops Hops r1 r Hlt1 Hlt Hview) as (Hout & Hview' & _).
  destruct (exec_all_extends ops r1 Hops Hlt1) as [_ (_ & _ & Hstack & _)].
  destruct (exec_all ops r) as [o plain]. simpl in Hplain. subst o.
  unfold mbind at 1, M_bind at 1.
  destruct (exec_all ops r1) as [o r2]. simpl in Hout, Hview', Hstack. subst o.
  exists plain, (with_stack (tail (transactionStack r2)) r2).
  split; [done|]. split; [done|]. split; [exact Hview'|].
  simpl. by rewrite Hstack.
Qed.

Lemma commit_keeps_the_changes_witness :
  wf Sample.shop
  ∧ ∃ plain committed,
      exec_all [Delete "p1"; Create Sample.reworded] Sample.shop = (Ok (), plain)
      ∧ (_ ← beginTransaction; _ ← exec_all [Delete "p1"; Create Sample.reworded];
         commitTransaction) Sample.shop = (Ok (), committed)
      ∧ records committed = records plain.
Proof.
  split; [compute_done|].
  destruct (commit_keeps_the_changes Sample.shop [Delete "p1"; Create Sample.reworded])
    as (plain & committed & Hplain & Hcommitted & (Hrec & _) & _);
    [compute_done|reflexivity|].
  by exists plain, committed.
Defined.

(** X14. In every state the operations reach from a new store, a snapshot
    on the transaction stack is an array of its own: it is not the live
    array, and no record operation changes it. *)
Theorem snapshots_stay_as_taken (u : nat → string) (r : Repo) (op : Op) (a : nat) :
  reachable u r → is_record_op op = true → a ∈ transactionStack r →
  a ≠ store r
  ∧ a ∈ transactionStack (exec op r).2
  ∧ a ≠ store (exec op r).2
  ∧ array_at (exec op r).2 a = array_at r a.
Proof.
  intros Hreach Hop Ha. pose proof (reachable_wf u r Hreach) as (Hlt & Hall & _).
  rewrite Forall_forall in Hall. destruct (Hall a Ha) as [Halloc Hne].
  destruct (exec_extends op r Hop Hlt) as [_ (_ & _ & Hstack & Hkeep)].
  destruct (Hkeep a Halloc Hne) as [Hne' Heq].
  split; [done|]. split; [by rewrite Hstack|]. split; [done|].
  unfold array_at. by rewrite Heq.
Qed.

Lemma snapshots_stay_as_taken_witness :
  let r := (exec BeginTransaction (exec (Create Sample.widget) (new Sample.uuid)).2).2 in
  reachable Sample.uuid r
  ∧ transactionStack r = [1%nat]
  ∧ array_at (exec (Delete "p1") r).2 1 = [Sample.widget]
  ∧ records (exec (Delete "p1") r).2 = [].
Proof.
  assert (Hreach : reachable Sample.uuid
            (exec BeginTransaction (exec (Create Sample.widget) (new Sample.uuid)).2).2).
  { do 2 apply reachable_step. apply reachable_new. }
  split; [exact Hreach|]. split; [reflexivity|]. split; [|vm_compute; reflexivity].
  destruct (snapshots_stay_as_taken Sample.uuid _ (Delete "p1") 1%nat Hreach)
    as (_ & _ & _ & Heq); [reflexivity|by left|].
  rewrite Heq. vm_compute. reflexivity.
Defined.

End Nested.

(** ** The record service: what the hooks add *)

Section Gate.

Import BaseService.

Context {R : Type} {repo : IRepository.t R}.
Variable entity : EntityClass.


End Gate.


Section AfterHook.

Import BaseService.

(** X16. A failure of [afterCreate] comes after the store has done its
    work: [create] fails with the error of the hook, and the new record is
    in the store all the same. *)
Theorem after_hook_failure_keeps_record
  (entity : EntityClass) (this : Hooks InMemory.Repo) (data : Obj) (e : Error)
  (r : InMemory.Repo) :
  InMemory.wf r →
  beforeCreate this = beforeCreate (base entity) →
  validate entity (Object_assign (construct entity) data) = [] →
  (∀ instance s, afterCreate this instance s = (Throw e, s)) →
  ∃ created r',
    InMemory.create data r = (Ok created, r')
    ∧ create this data r = (Throw e, r')
    ∧ InMemory.records r' = InMemory.records r ++ [created].
Proof.
  intros (Hlt & _ & _) Hbefore Hok Hafter.
  pose proof (records_create data r Hlt) as Hrec.
  unfold create. rewrite Hbefore. cbn [beforeCreate base].
  unfold validateOrReject. rewrite Hok.
  unfold mbind at 1, M_bind at 1. unfold mret at 1, M_ret at 1.
  unfold mbind at 1, M_bind at 1. cbn [IRepository.create InMemory_IRepository].
  rewrite create_eq in Hrec |- *. cbv zeta in *. unfold snd in Hrec.
  eexists _, _. split; [reflexivity|]. split; [|exact Hrec].
  unfold mbind, M_bind. by rewrite Hafter.
Qed.

Lemma after_hook_failure_keeps_record_witness :
  InMemory.wf Sample.reviews
  ∧ ∃ r', create Sample.failing_after (<["id" := VStr "r2"]> Sample.reworded) Sample.reviews
          = (Throw (Err "after"), r')
          ∧ InMemory.records r'
            = [Sample.praise; <["id" := VStr "r2"]> Sample.reworded].
Proof.
  split; [compute_done|].
  destruct (after_hook_failure_keeps_record ProductReview.entity Sample.failing_after
              (<["id" := VStr "r2"]> Sample.reworded) (Err "after") Sample.reviews)
    as (created & r' & Hcreate & Hfail & Hrec);
    [compute_done|reflexivity|vm_compute; reflexivity|reflexivity|].
  exists r'. split; [done|]. rewrite Hrec.
  assert (Hc : created = <["id" := VStr "r2"]> Sample.reworded).
  { assert (H : (InMemory.create (<["id" := VStr "r2"]> Sample.reworded) Sample.reviews).1
                = Ok created) by by rewrite Hcreate.
    rewrite create_eq in H. by injection H as <-. }
  rewrite Hc. reflexivity.
Defined.

End AfterHook.

(** ** The product service: one product for a name *)

Section Products.

Import InMemory.

Variable entity : BaseService.EntityClass.

Lemma findOne_by_name (v : Value) (r : Repo) :
  ∃ found, findOne [("name", v)] r = (Ok found, r)
           ∧ (is_Some found ↔ v ∈ (λ x : Obj, get x "name") <$> records r).
Proof.
  eexists. split; [reflexivity|]. induction (records r) as [|x xs IH]; simpl.
  - split; [by intros [? ?]|]. intros H. by apply elem_of_nil in H.
  - rewrite andb_true_r. destruct (strict_eq (get x "name") v) eqn:Heq.
    + apply strict_eq_true in Heq. split; [|by eauto]. intros _. rewrite <- Heq. by left.
    + apply strict_eq_false in Heq. rewrite IH. rewrite elem_of_cons.
      split; [by right|]. by intros [?|?].
Qed.

Lemma bind_ok {S A B} (m : M S A) (k : A → M S B) (s s' : S) (a : A) :
  m s = (Ok a, s') → (m ≫= k) s = k a s'.
Proof. intros H. unfold mbind, M_bind. by rewrite H. Qed.

Lemma bind_throw {S A B} (m : M S A) (k : A → M S B) (s s' : S) (e : Error) :
  m s = (Throw e, s') → (m ≫= k) s = (Throw e, s').
Proof. intros H. unfold mbind, M_bind. by rewrite H. Qed.

Lemma ret_ok {S A} (a : A) (s : S) : (mret a : M S A) s = (Ok a, s).
Proof. reflexivity. Qed.

(** What one [create] of the product service does, case by case. *)
Lemma product_create_cases (data : Obj) (r : Repo) :
  let instance := BaseService.Object_assign (BaseService.construct entity) data in
  BaseService.create (ProductService.hooks entity) data r =
  match BaseService.validate entity instance with
  | [] =>
      if truthy (get data "name") && bool_decide (get data "name" ∈ (λ x : Obj, get x "name") <$> records r)
      then (Throw (Err ("Product name '" +:+ ProductService.ToString (get data "name")
                        +:+ "' already exists.")), r)
      else create data r
  | errors => (Throw (ValidationErrors errors), r)
  end.
Proof.
  cbv zeta. unfold BaseService.create.
  cbn [BaseService.beforeCreate BaseService.afterCreate ProductService.hooks
       BaseService.base IRepository.create InMemory_IRepository].
  assert (Hstore : ∀ s, (create data ≫= λ instance, mret () ≫= λ _, mret instance) s
                        = create data s).
  { intros s. unfold mbind, M_bind. rewrite create_eq. reflexivity. }
  unfold ProductService.beforeCreate. cbn [BaseService.beforeCreate BaseService.base].
  unfold BaseService.validateOrReject.
  destruct (BaseService.validate entity _) as [|err errs]; [|reflexivity].
  destruct (truthy (get data "name")); simpl andb.
  - destruct (findOne_by_name (get data "name") r) as (found & Hfind & Hfound).
    cbn [IRepository.findOne InMemory_IRepository].
    destruct found as [x|].
    + rewrite bool_decide_eq_true_2 by (apply Hfound; eauto).
      apply bind_throw. rewrite (bind_ok _ _ r r ()) by reflexivity.
      by rewrite (bind_ok _ _ r r (Some x)).
    + rewrite bool_decide_eq_false_2 by (intros Hin; apply Hfound in Hin as [? ?]; done).
      rewrite (bind_ok _ _ r r ()); [apply Hstore|].
      rewrite (bind_ok _ _ r r ()) by reflexivity.
      by rewrite (bind_ok _ _ r r None).
  - rewrite (bind_ok _ _ r r ()); [apply Hstore|]. reflexivity.
Qed.

(** X17. When the data passes the validation and its name is truthy,
    [create] of the product service fails with the message that the name
    already exists if a stored record has that name, and leaves the store as
    it was; if none has it, it does what the store's [create] does. *)
Theorem product_name_gate (data : Obj) (r : Repo) :
  BaseService.validate entity
    (BaseService.Object_assign (BaseService.construct entity) data) = [] →
  truthy (get data "name") = true →
  (get data "name" ∈ (λ x : Obj, get x "name") <$> records r →
   BaseService.create (ProductService.hooks entity) data r
   = (Throw (Err ("Product name '" +:+ ProductService.ToString (get data "name")
                  +:+ "' already exists.")), r))
  ∧ (get data "name" ∉ (λ x : Obj, get x "name") <$> records r →
     BaseService.create (ProductService.hooks entity) data r = create data r).
Proof.
  intros Hok Htruthy. rewrite product_create_cases. cbv zeta. rewrite Hok, Htruthy.
  split; intros Hin.
  - by rewrite bool_decide_eq_true_2.
  - by rewrite bool_decide_eq_false_2.
Qed.

Lemma names_snoc (xs : list Obj) (e : Obj) :
  ProductService.names (xs ++ [e])
  = ProductService.names xs ++ (if truthy (get e "name") then [get e "name"] else []).
Proof.
  unfold ProductService.names. rewrite fmap_app, filter_app. f_equal. simpl.
  rewrite filter_cons, filter_nil. destruct (truthy (get e "name")) eqn:Htruthy.
  - by rewrite decide_True.
  - by rewrite decide_False.
Qed.

Lemma product_create_keeps_names (data : Obj) (r : Repo) :
  wf r → NoDup (ProductService.names (records r)) →
  let r' := (BaseService.create (ProductService.hooks entity) data r).2 in
  wf r' ∧ NoDup (ProductService.names (records r')).
Proof.
  intros Hwf Hnames. cbv zeta. rewrite product_create_cases. cbv zeta.
  destruct (BaseService.validate entity _); [|done].
  destruct (truthy (get data "name") && _) eqn:Hcheck; [done|].
  pose proof Hwf as (Hlt & _ & _).
  split; [eapply extends_wf; [exact Hwf|by apply create_extends]|].
  rewrite records_create by done. rewrite names_snoc.
  assert (Hname : get (<["id" := assigned_id r data]> data) "name" = get data "name").
  { unfold get. by rewrite lookup_insert_ne. }
  rewrite Hname. destruct (truthy (get data "name")) eqn:Htruthy;
    [|by rewrite app_nil_r].
  simpl in Hcheck. apply bool_decide_eq_false in Hcheck.
  apply NoDup_app. split; [done|]. split; [|apply NoDup_singleton].
  intros v Hv Hin. apply list_elem_of_singleton in Hin as ->. apply Hcheck.
  unfold ProductService.names in Hv. by apply list_elem_of_filter in Hv as [_ Hv].
Qed.

(** X18. Through the product service the store never comes to hold two
    records with the same truthy name: if the names are distinct, they are
    still distinct after any number of [create] calls, whether they fail
    or not. *)
Theorem product_names_stay_distinct (dataArr : list Obj) (r : Repo) :
  wf r → NoDup (ProductService.names (records r)) →
  NoDup (ProductService.names (records (ProductService.attempts entity dataArr r))).
Proof.
  intros Hwf Hnames. cut (wf (ProductService.attempts entity dataArr r)
    ∧ NoDup (ProductService.names (records (ProductService.attempts entity dataArr r)))).
  { by intros [_ ?]. }
  revert r Hwf Hnames. induction dataArr as [|data rest IH]; intros r Hwf Hnames; [done|].
  destruct (product_create_keeps_names data r Hwf Hnames) as [Hwf' Hnames'].
  by apply IH.
Qed.

End Products.

Lemma product_name_gate_witness :
  BaseService.validate Sample.priced
    (BaseService.Object_assign (BaseService.construct Sample.priced) Sample.widget_again) = []
  ∧ truthy (Js.get Sample.widget_again "name") = true
  ∧ BaseService.create (ProductService.hooks Sample.priced) Sample.widget_again Sample.shop
    = (Throw (Err "Product name 'Widget' already exists."), Sample.shop)
  ∧ (BaseService.create (ProductService.hooks Sample.priced) Sample.gizmo Sample.shop).1
    = Ok (<["id" := VStr "uuid-"]> Sample.gizmo).
Proof.
  split; [vm_compute; reflexivity|]. split; [reflexivity|].
  destruct (product_name_gate Sample.priced Sample.widget_again Sample.shop) as [Htaken _];
    [vm_compute; reflexivity|reflexivity|].
  destruct (product_name_gate Sample.priced Sample.gizmo Sample.shop) as [_ Hfree];
    [vm_compute; reflexivity|reflexivity|].
  split.
  - rewrite Htaken; [reflexivity|]. vm_compute. left.
  - rewrite Hfree; [vm_compute; reflexivity|]. vm_compute. intros H.
    repeat (apply elem_of_cons in H as [H|H]; [discriminate|]). by apply elem_of_nil in H.
Defined.

Lemma product_names_stay_distinct_witness :
  InMemory.wf Sample.shop
  ∧ ProductService.names (InMemory.records Sample.shop) = [VStr "Widget"; VStr "Gadget"]
  ∧ NoDup (ProductService.names
             (InMemory.records
                (ProductService.attempts Sample.priced
                   [Sample.gizmo; Sample.widget_again; Sample.gizmo] Sample.shop))).
Proof.
  split; [compute_done|]. split; [vm_compute; reflexivity|].
  apply (product_names_stay_distinct Sample.priced
           [Sample.gizmo; Sample.widget_again; Sample.gizmo] Sample.shop);
    [compute_done|].
  replace (ProductService.names (InMemory.records Sample.shop))
    with [VStr "Widget"; VStr "Gadget"] by (vm_compute; reflexivity).
  apply NoDup_cons. split; [|apply NoDup_singleton].
  intros H. apply list_elem_of_singleton in H. discriminate.
Defined.

(** ** The decorator *)

Section Decorating.

Import Decorators.

Lemma lookup_chain_insert_other
  (reg : Registry) (c : nat) (key key' : string) (v : Meta) (chain : list nat) :
  c ∉ chain ∨ key ≠ key' →
  lookup_chain (<[(c, key) := v]> reg) key' chain = lookup_chain reg key' chain.
Proof.
  intros Hother. induction chain as [|d chain IH]; [done|]. simpl.
  rewrite lookup_insert_ne.
  - rewrite IH; [done|]. destruct Hother as [Hc|Hk]; [|by right].
    left. by apply not_elem_of_cons in Hc as [_ ?].
  - intros [= -> ->]. destruct Hother as [Hc|Hk]; [|done]. apply Hc. by left.
Qed.

Lemma lookup_chain_insert_self
  (reg : Registry) (c : nat) (key : string) (v : Meta) (rest : list nat) :
  lookup_chain (<[(c, key) := v]> reg) key (c :: rest) = Some v.
Proof. simpl. by rewrite lookup_insert_eq. Qed.

(** X19. What [getRepositoryConfig] reads back after [@Repository]. For the
    type SQL with a database name that is not empty it is the metadata as
    given. For any other metadata it is the type alone, the database name
    being dropped, unless the class already has or inherits a configuration:
    then that configuration is read back and the new type is not. *)
Theorem decorator_read_back
  (metadata : RepositoryMetadata) (target : Target) (reg : Registry) :
  let reg' := (Repository metadata target reg).2 in
  (Repository metadata target reg).1 = Ok ()
  ∧ (type metadata = SQL → has_db metadata = true →
     getRepositoryConfig target reg' = (Ok (Some (Config metadata)), reg'))
  ∧ (type metadata ≠ SQL ∨ has_db metadata = false →
     getRepositoryConfig target reg'
     = (Ok (Some (default (Kind (type metadata))
                    (lookup_chain reg "repository:config"
                       (self target :: ancestors target)))), reg')).
Proof.
  cbv zeta. unfold Repository. split; [by destruct (_ && _)|]. split.
  - intros Hsql Hdb. rewrite Hdb, bool_decide_eq_true_2 by done.
    unfold defineMetadata, modify. cbn [snd andb].
    unfold getRepositoryConfig, getMetadata, gets, mbind, M_bind.
    by rewrite lookup_chain_insert_self.
  - intros Hother.
    assert (Hcond : bool_decide (type metadata = SQL) && has_db metadata = false).
    { destruct Hother as [Hne| ->]; [by rewrite bool_decide_eq_false_2|apply andb_false_r]. }
    rewrite Hcond. unfold defineMetadata, modify. cbn [snd].
    unfold getRepositoryConfig, getMetadata, gets, mbind, M_bind.
    rewrite lookup_chain_insert_other by by right.
    destruct (lookup_chain reg "repository:config" _) as [c|]; [reflexivity|].
    by rewrite lookup_chain_insert_self.
Qed.

(** X20. The metadata belongs to the class and to the classes that inherit
    from it. Decorating a class changes nothing for a class that does not
    inherit from it, and a class without metadata of its own reads what its
    superclass reads. *)
Theorem decorator_scope
  (metadata : RepositoryMetadata) (target other : Target) (reg : Registry)
  (c p : nat) (above : list nat) :
  (self target ∉ self other :: ancestors other →
   (getRepositoryConfig other (Repository metadata target reg).2).1
   = (getRepositoryConfig other reg).1)
  ∧ (reg !! (c, "repository:config") = None → reg !! (c, "repository:type") = None →
     (getRepositoryConfig {| self := c; ancestors := p :: above |} reg).1
     = (getRepositoryConfig {| self := p; ancestors := above |} reg).1).
Proof.
  split.
  - intros Hother.
    unfold Repository, getRepositoryConfig, getMetadata, gets, mbind, M_bind,
      defineMetadata, modify.
    destruct (_ && _); cbn [snd];
      (rewrite !lookup_chain_insert_other by (by left));
      destruct (lookup_chain reg "repository:config" (self other :: ancestors other));
      cbv beta; cbn [fst]; rewrite ?lookup_chain_insert_other by (by left); done.
  - intros Hconfig Htype.
    unfold getRepositoryConfig, getMetadata, gets, mbind, M_bind.
    cbn [lookup_chain self ancestors]. rewrite Hconfig.
    destruct (reg !! (p, "repository:config")); [done|].
    destruct (lookup_chain reg "repository:config" above); [done|].
    cbn [lookup_chain fst]. by rewrite Htype.
Qed.

End Decorating.

(** ** The remote store: one request for a call *)

(** X21. Every call on the remote store other than the three transaction
    calls sends exactly one request, the bulk calls included: the method,
    the URL, the body and the query are those of [Wire.request_of], where a
    limit or an offset of [0] is not sent. The transaction calls send none.
    When the client fails, the call fails with the same error. *)
Theorem one_request_for_a_call
  (Net : Type) (axios : ∀ sh, Rest.Request → M Net (Rest.response_data sh))
  (this : Rest.RestRepository) (c : Rest.Call) (log : list Rest.Request) (net : Net) :
  let after := Rest.call (Wire.recorded axios) this c (log, net) in
  after.2.1 = match Wire.request_of this c with
              | Some req => req :: log
              | None => log
              end
  ∧ ∀ req e net',
      Wire.request_of this c = Some req →
      axios (Wire.shape_of c) req net = (Throw e, net') →
      after = (Throw e, (req :: log, net')).
Proof.
  cbv zeta.
  destruct c; cbn [Rest.call Wire.request_of Wire.shape_of];
    try (split; [reflexivity|discriminate]);
    unfold Rest.createMany, Rest.updateMany, Rest.deleteMany, Rest.create,
      Rest.update, Rest.delete, Rest.findById, Rest.findOne, Rest.findAll,
      Rest.find, mbind, M_bind, Wire.recorded; cbn [snd fst];
    try (destruct (opt options limit) as [[| |]|], (opt options offset) as [[| |]|];
         cbn [truthy_num truthy Z.eqb negb]);
    match goal with
    | |- context [axios ?sh ?req net] =>
        split; [by destruct (axios sh req net) as [[?|?] ?]
               |intros r e net' [= <-] Hfail; by rewrite Hfail]
    end.
Qed.

(** ** The relational store: what it asks of the manager *)

Section Relational.

Import Sql.

Context {Db Ref : Type}.
Variable em : EntityManager Db Ref.

Lemma note_ok {A} (call : @Asked Ref) (m : M Db A) (log : list (@Asked Ref)) (db : Db) :
  note call m (log, db) = ((m db).1, (call :: log, (m db).2)).
Proof. unfold note. simpl. by destruct (m db). Qed.

Lemma updateMany_loop_asks (updates : list (string * Obj)) :
  ∀ (acc results : list (option Ref)) (log log' : list (@Asked Ref)) (db db' : Db),
    updateMany_loop (journaled em) updates acc (log, db) = (Ok results, (log', db')) →
    ∃ answers,
      results = acc ++ answers
      ∧ length answers = length updates
      ∧ log' = rev (asked_for_all updates answers) ++ log.
Proof.
  induction updates as [|[id data] rest IH]; intros acc results log log' db db'.
  - intros [= <- <- <-]. exists []. by rewrite app_nil_r.
  - cbn [updateMany_loop]. unfold mbind at 1, M_bind at 1.
    cbn [em_findOne journaled]. rewrite note_ok.
    destruct (em_findOne em (ById id) db) as [[[e|]|err] db1]; cbn [fst snd];
      [| |discriminate].
    + unfold mbind at 1, M_bind at 1. cbn [em_assign journaled]. rewrite note_ok.
      destruct (em_assign em e data db1) as [[[]|err] db2]; cbn [fst snd]; [|discriminate].
      intros Hloop. destruct (IH _ _ _ _ _ _ Hloop) as (answers & -> & Hlen & ->).
      exists (Some e :: answers). split; [by rewrite <- app_assoc|].
      split; [simpl; lia|]. cbn [asked_for_all asked_for fst snd].
      rewrite rev_app_distr. simpl. by rewrite <- !app_assoc.
    + intros Hloop. destruct (IH _ _ _ _ _ _ Hloop) as (answers & -> & Hlen & ->).
      exists (None :: answers). split; [by rewrite <- app_assoc|].
      split; [simpl; lia|]. cbn [asked_for_all asked_for fst snd].
      rewrite rev_app_distr. simpl. by rewrite <- !app_assoc.
Qed.

(** X22. When [updateMany] of the relational store succeeds, it has looked
    every identifier up, one lookup for an entry and in their order, has
    assigned the data where an entity was found and only there, and has
    then flushed once, with the entities found. It answers every entry:
    the entity, or [null] where none was found. *)
Theorem sql_updateMany_flushes_once
  (updates : list (string * Obj)) (results : list (option Ref))
  (log log' : list (@Asked Ref)) (db db' : Db) :
  updateMany (journaled em) updates (log, db) = (Ok results, (log', db')) →
  length results = length updates
  ∧ log' = AskedPersistAndFlush (omap id results)
             :: rev (asked_for_all updates results) ++ log.
Proof.
  unfold updateMany. unfold mbind at 1, M_bind at 1.
  destruct (updateMany_loop (journaled em) updates [] (log, db))
    as [[answers|err] [log1 db1]] eqn:Hloop; [|discriminate].
  destruct (updateMany_loop_asks _ _ _ _ _ _ _ Hloop) as (answers' & Heq & Hlen & ->).
  simpl in Heq. subst answers'.
  unfold mbind at 1, M_bind at 1. cbn [em_persistAndFlush journaled]. rewrite note_ok.
  destruct (em_persistAndFlush em (omap id answers) db1) as [[[]|err] db2];
    cbn [fst snd]; [|discriminate].
  by intros [= <- <- <-].
Qed.

(** X23. For an identifier the manager finds no entity for, [update] of the
    relational store answers [null] and [delete] does nothing: the lookup
    is all they ask of the manager, nothing is assigned, flushed or
    removed. *)
Theorem sql_unknown_id_writes_nothing
  (id : string) (data : Obj) (log : list (@Asked Ref)) (db db' : Db) :
  em_findOne em (ById id) db = (Ok None, db') →
  update (journaled em) id data (log, db)
  = (Ok None, (AskedFindOne (ById id) :: log, db'))
  ∧ delete (journaled em) id (log, db)
    = (Ok (), (AskedFindOne (ById id) :: log, db')).
Proof.
  intros Hfind. unfold update, delete, mbind, M_bind.
  cbn [em_findOne journaled]. rewrite note_ok, Hfind. done.
Qed.

Lemma creates_ask (dataArr : list Obj) :
  ∀ (entities : list Ref) (log log' : list (@Asked Ref)) (db db' : Db),
    for_each (em_create (journaled em)) dataArr (log, db) = (Ok entities, (log', db')) →
    length entities = length dataArr ∧ log' = rev (AskedCreate <$> dataArr) ++ log.
Proof.
  induction dataArr as [|data rest IH]; intros entities log log' db db'.
  - by intros [= <- <- <-].
  - rewrite for_each_cons. cbn [em_create journaled]. rewrite note_ok.
    destruct (em_create em data db) as [[e|err] db1]; cbn [fst snd]; [|discriminate].
    destruct (for_each _ rest _) as [[es|err] [log2 db2]] eqn:Hrest; [|discriminate].
    intros [= <- <- <-]. destruct (IH _ _ _ _ _ Hrest) as [Hlen ->].
    split; [simpl; lia|]. simpl. by rewrite <- app_assoc.
Qed.

(** X24. When [createMany] of the relational store succeeds, it has created
    an entity for every partial, in their order, and has then flushed once,
    with all of them; these are the entities it returns. *)
Theorem sql_createMany_flushes_once
  (dataArr : list Obj) (entities : list Ref) (log log' : list (@Asked Ref)) (db db' : Db) :
  createMany (journaled em) dataArr (log, db) = (Ok entities, (log', db')) →
  length entities = length dataArr
  ∧ log' = AskedPersistAndFlush entities :: rev (AskedCreate <$> dataArr) ++ log.
Proof.
  unfold createMany. unfold mbind at 1, M_bind at 1.
  destruct (for_each (em_create (journaled em)) dataArr (log, db))
    as [[es|err] [log1 db1]] eqn:Hcreates; [|discriminate].
  destruct (creates_ask _ _ _ _ _ _ Hcreates) as [Hlen ->].
  unfold mbind at 1, M_bind at 1. cbn [em_persistAndFlush journaled]. rewrite note_ok.
  destruct (em_persistAndFlush em es db1) as [[[]|err] db2]; cbn [fst snd]; [|discriminate].
  by intros [= <- <- <-].
Qed.

End Relational.

Lemma sql_updateMany_flushes_once_witness :
  let db : gmap string Obj := {["p1" := Sample.widget]} in
  ∃ db',
    Sql.updateMany (Sql.journaled Sql.shelf)
      [("p7", Sample.reworded); ("p1", Sample.reworded)] ([], db)
    = (Ok [None; Some "p1"],
       ([Sql.AskedPersistAndFlush ["p1"]; Sql.AskedAssign "p1" Sample.reworded;
         Sql.AskedFindOne (Sql.ById "p1"); Sql.AskedFindOne (Sql.ById "p7")], db')).
Proof.
  cbv zeta.
  assert (Hrun : ∃ out, Sql.updateMany (Sql.journaled Sql.shelf)
                   [("p7", Sample.reworded); ("p1", Sample.reworded)]
                   ([], {["p1" := Sample.widget]})
                 = (Ok [None; Some "p1"], out)).
  { eexists. vm_compute. reflexivity. }
  destruct Hrun as [[log' db'] Hrun].
  destruct (sql_updateMany_flushes_once Sql.shelf _ _ _ _ _ _ Hrun) as [_ Hlog].
  exists db'. rewrite Hrun, Hlog. reflexivity.
Defined.

Lemma sql_unknown_id_writes_nothing_witness :
  Sql.update (Sql.journaled Sql.shelf) "p7" Sample.reworded
    ([], ({["p1" := Sample.widget]} : gmap string Obj))
  = (Ok None, ([Sql.AskedFindOne (Sql.ById "p7")], {["p1" := Sample.widget]}))
  ∧ Sql.delete (Sql.journaled Sql.shelf) "p7"
      ([], ({["p1" := Sample.widget]} : gmap string Obj))
    = (Ok (), ([Sql.AskedFindOne (Sql.ById "p7")], {["p1" := Sample.widget]})).
Proof.
  apply (sql_unknown_id_writes_nothing Sql.shelf "p7" Sample.reworded []
           {["p1" := Sample.widget]} {["p1" := Sample.widget]}).
  vm_compute. reflexivity.
Defined.

Lemma sql_createMany_flushes_once_witness :
  ∃ db',
    Sql.createMany (Sql.journaled Sql.shelf) [Sample.widget; Sample.gadget]
      ([], (∅ : gmap string Obj))
    = (Ok ["p1"; "p2"],
       ([Sql.AskedPersistAndFlush ["p1"; "p2"]; Sql.AskedCreate Sample.gadget;
         Sql.AskedCreate Sample.widget], db')).
Proof.
  assert (Hrun : ∃ out, Sql.createMany (Sql.journaled Sql.shelf)
                   [Sample.widget; Sample.gadget] ([], (∅ : gmap string Obj))
                 = (Ok ["p1"; "p2"], out)).
  { eexists. vm_compute. reflexivity. }
  destruct Hrun as [[log' db'] Hrun].
  destruct (sql_createMany_flushes_once Sql.shelf _ _ _ _ _ _ Hrun) as [_ Hlog].
  exists db'. rewrite Hrun, Hlog. reflexivity.
Defined.
